(** * react-performance: [src/utils.js]

    A shallow embedding of the async-state hook [useAsync] (with its
    liveness gate [useSafeDispatch]) and of the two grid helpers
    [updateGridState] and [updateGridCellState], together with the
    properties the specification states about them; and of [debounce],
    [useDebouncedState], [useForceRerender] and [AppGrid], with
    properties of theirs.

    Conventions of the embedding:
    - a JavaScript value is a term of [value]; objects, functions and
      promises carry an identity, which is what [===] compares;
    - the reducer state of the hook is a finite map from property names
      to values (the object [{status, data, error}] and whatever else a
      caller spreads into it);
    - a JavaScript number is a binary64: [NaN], an infinity, or a finite
      value [m * 2^e]; a product is rounded to 53 bits, to nearest, ties
      to even; the sign of zero is not kept;
    - [Math.random] is a sequence of draws together with the number of
      draws already consumed;
    - promises follow the language's rules as far as the hook can tell:
      reactions run as microtasks in the order they were registered, and
      a promise resolved with itself is rejected with a TypeError;
    - timeouts run on a clock counting milliseconds, none before it is
      due; the host keeps a delay as a signed 32-bit integer. *)

From Stdlib Require Import QArith Qpower Lqa.
From stdpp Require Import gmap strings list pretty.

#[local] Set Warnings "-clear-no-such-hyp".

Close Scope Q_scope.
Open Scope string_scope.
Open Scope list_scope.

(** ** JavaScript values *)

Module JS.

Inductive number :=
| NaN
| Infinity (negative : bool)
| Finite (m e : Z).

(** The rational a finite number [m * 2^e] stands for. *)
Definition to_Q (m e : Z) : Q := (inject_Z m * 2 ^ e)%Q.

(** [m] and [e] are the significand and exponent of a finite binary64. *)
Definition binary64 (m e : Z) : Prop :=
  (Z.abs m < 2 ^ 53 /\ -1074 <= e <= 971)%Z.

Definition finite_compare (m1 e1 m2 e2 : Z) : comparison :=
  let e := Z.min e1 e2 in
  (m1 * 2 ^ (e1 - e) ?= m2 * 2 ^ (e2 - e))%Z.

(** [a / 2^s] rounded to the nearest integer, a tie to the even one. *)
Definition round_shift (a s : Z) : Z :=
  let q := (a / 2 ^ s)%Z in
  let r := (a mod 2 ^ s)%Z in
  let h := (2 ^ (s - 1))%Z in
  if (r <? h)%Z then q
  else if (h <? r)%Z then (q + 1)%Z
  else if Z.even q then q else (q + 1)%Z.

(** The binary64 nearest to [m * 2^e]: at most 53 bits of significand,
    no exponent under -1074, an infinity from [2^1024] on. *)
Definition round64 (m e : Z) : number :=
  let a := Z.abs m in
  let s := Z.max (Z.log2 a - 52) (-1074 - e) in
  let '(a, e) := if (0 <? s)%Z then (round_shift a s, (e + s)%Z) else (a, e) in
  match finite_compare a e 1 1024 with
  | Lt => Finite (Z.sgn m * a) e
  | _ => Infinity (m <? 0)%Z
  end.

(** [x * y] *)
Definition mul (x y : number) : number :=
  match x, y with
  | NaN, _ | _, NaN => NaN
  | Infinity s, Infinity t => Infinity (xorb s t)
  | Infinity s, Finite m _ | Finite m _, Infinity s =>
      if (m =? 0)%Z then NaN else Infinity (xorb s (m <? 0)%Z)
  | Finite m1 e1, Finite m2 e2 => round64 (m1 * m2) (e1 + e2)
  end.

(** [x > y] *)
Definition number_gt (x y : number) : bool :=
  match x, y with
  | NaN, _ | _, NaN => false
  | Infinity s, Infinity t => negb s && t
  | Infinity s, Finite _ _ => negb s
  | Finite _ _, Infinity t => t
  | Finite m1 e1, Finite m2 e2 =>
      match finite_compare m1 e1 m2 e2 with
      | Gt => true
      | _ => false
      end
  end.

(** Identity of a promise: [Ext] promises are made and settled by the
    caller's code, [Drv] promises are the ones [Promise.prototype.then]
    returns. *)
Inductive pid :=
| Ext (n : nat)
| Drv (n : nat).

#[global] Instance pid_eq_dec : EqDecision pid.
Proof. solve_decision. Defined.

#[global] Instance pid_countable : Countable pid.
Proof.
  refine (inj_countable'
            (fun p => match p with Ext n => inl n | Drv n => inr n end)
            (fun s => match s with inl n => Ext n | inr n => Drv n end) _).
  by intros [].
Defined.

(** The values the code handles.  Objects, functions and promises have an
    identity.  [VPromiseThen] is [Promise.prototype.then].  [VTypeError p]
    is the TypeError the host makes when promise [p] is resolved with
    itself: an object with no enumerable property of its own. *)
#[warnings="-register-all"]
Inductive value :=
| VUndefined
| VNull
| VBool (b : bool)
| VNum (n : number)
| VStr (s : string)
| VObject (id : nat) (props : list (string * value))
| VFunction (id : nat)
| VPromise (p : pid)
| VPromiseThen
| VTypeError (p : pid).

(** Own enumerable properties as a map; a later binding of an object
    literal overrides an earlier one. *)
Definition props_map (props : list (string * value)) : gmap string value :=
  foldl (fun m kv => <[kv.1 := kv.2]> m) ∅ props.

(** The characters of a string primitive, keyed by their index. *)
Definition string_props (s : string) : gmap string value :=
  props_map (imap (fun i c => (pretty i, VStr (String c EmptyString)))
                  (String.list_ascii_of_string s)).

(** What [{...v}] copies out of [v]. *)
Definition own_props (v : value) : gmap string value :=
  match v with
  | VObject _ props => props_map props
  | VStr s => string_props s
  | _ => ∅
  end.

(** [o.k] on a state object, as destructuring reads it. *)
Definition field (o : gmap string value) (k : string) : value :=
  default VUndefined (o !! k).

Definition number_eq (a b : number) : bool :=
  match a, b with
  | Finite m1 e1, Finite m2 e2 =>
      match finite_compare m1 e1 m2 e2 with
      | Eq => true
      | _ => false
      end
  | Infinity s, Infinity t => eqb s t
  | _, _ => false
  end.

(** [a === b] *)
Definition strict_eq (a b : value) : bool :=
  match a, b with
  | VUndefined, VUndefined => true
  | VNull, VNull => true
  | VBool x, VBool y => eqb x y
  | VNum x, VNum y => number_eq x y
  | VStr x, VStr y => String.eqb x y
  | VObject i _, VObject j _ => Nat.eqb i j
  | VFunction i, VFunction j => Nat.eqb i j
  | VPromise p, VPromise q => bool_decide (p = q)
  | VPromiseThen, VPromiseThen => true
  | VTypeError p, VTypeError q => bool_decide (p = q)
  | _, _ => false
  end.

(** ToBoolean *)
Definition truthy (v : value) : bool :=
  match v with
  | VUndefined | VNull => false
  | VBool b => b
  | VNum NaN => false
  | VNum (Finite m _) => negb (m =? 0)%Z
  | VNum (Infinity _) => true
  | VStr s => negb (String.eqb s "")
  | VObject _ _ | VFunction _ | VPromise _ | VPromiseThen => true
  | VTypeError _ => true
  end.

(** [v.k]: [None] is the TypeError of reading a property of [null] or
    [undefined].  A promise inherits [then]; the other inherited members
    are not modelled.  Primitives, functions and errors have no [then]. *)
Definition get (v : value) (k : string) : option value :=
  match v with
  | VUndefined | VNull => None
  | VObject _ props => Some (field (props_map props) k)
  | VPromise _ => Some (if String.eqb k "then" then VPromiseThen else VUndefined)
  | _ => Some VUndefined
  end.

Definition callable (v : value) : bool :=
  match v with
  | VFunction _ | VPromiseThen => true
  | _ => false
  end.

(** An awaitable exposes a continuation registration: a [then] that can
    be called. *)
Definition awaitable (v : value) : bool :=
  match get v "then" with
  | Some t => callable t
  | None => false
  end.

End JS.

(** ** The async-state hook *)

Module Async.
Import JS.

(** *** The hook instance: [useSafeDispatch] and [useAsync] *)

Definition defaultInitialState : gmap string value :=
  {[ "status" := VStr "idle"; "data" := VNull; "error" := VNull ]}.

(** What one mounted instance of the hook keeps between renders:
    [mounted.current] of [useSafeDispatch], [initialStateRef.current]
    and the reducer state of [useAsync]. *)
Record tracker := Tracker {
  mounted : bool;
  initialStateRef : gmap string value;
  state : gmap string value;
}.

(** [(s, a) => ({...s, ...a})] *)
Definition reducer (s a : gmap string value) : gmap string value := a ∪ s.

(** The dispatch function [React.useReducer] returns. *)
Definition setState (a : gmap string value) (t : tracker) : tracker :=
  Tracker (mounted t) (initialStateRef t) (reducer (state t) a).

(** [(...args) => (mounted.current ? dispatch(...args) : void 0)] *)
Definition useSafeDispatch {A : Type} (dispatch : A -> tracker -> tracker)
    (args : A) (t : tracker) : tracker :=
  if mounted t then dispatch args t else t.

(** The layout effect of [useSafeDispatch] and its cleanup. *)
Definition attach (t : tracker) : tracker :=
  Tracker true (initialStateRef t) (state t).

Definition detach (t : tracker) : tracker :=
  Tracker false (initialStateRef t) (state t).

Definition safeSetState : gmap string value -> tracker -> tracker :=
  useSafeDispatch setState.

(** The first render: the ref captures the defaults merged with the
    caller's overrides, and the reducer starts from that object. *)
Definition useAsync (initialState : value) : tracker :=
  let snapshot := own_props initialState ∪ defaultInitialState in
  Tracker false snapshot snapshot.

Definition setData (data : value) : tracker -> tracker :=
  safeSetState {[ "data" := data ]}.

Definition setError (error : value) : tracker -> tracker :=
  safeSetState {[ "error" := error ]}.

Definition reset (t : tracker) : tracker :=
  safeSetState (initialStateRef t) t.

(** The two continuations [run] hands to [promise.then]; each returns
    its argument. *)
Definition onFulfilled (data : value) (t : tracker) : value * tracker :=
  (data, safeSetState {[ "data" := data; "status" := VStr "resolved" ]} t).

Definition onRejected (error : value) (t : tracker) : value * tracker :=
  (error, safeSetState {[ "status" := VStr "rejected"; "error" := error ]} t).

(** What a render returns to the component, the callbacks apart. *)
Record view := View {
  isIdle : bool;
  isLoading : bool;
  isError : bool;
  isSuccess : bool;
  error : value;
  status : value;
  data : value;
}.

Definition render (t : tracker) : view :=
  let status := field (state t) "status" in
  let data := field (state t) "data" in
  let error := field (state t) "error" in
  View (strict_eq status (VStr "idle"))
       (strict_eq status (VStr "pending"))
       (strict_eq status (VStr "rejected"))
       (strict_eq status (VStr "resolved"))
       error status data.

(** *** Promises around the hook *)

Inductive outcome :=
| Fulfilled (v : value)
| Rejected (v : value).

(** The hook in its environment.  [settled] holds the promises that are
    fulfilled or rejected; [locked] the promises resolved with a thenable,
    whose fate is that thenable's; [reactions] the pairs of continuations
    that [run] registered on a promise not yet settled, each with the
    promise its [then] call returned; [jobs] the microtask queue;
    [handed] counts the pairs of continuations given to a user-defined
    [then]. *)
Record world := World {
  hook : tracker;
  settled : gmap pid outcome;
  locked : gmap pid value;
  reactions : list (pid * nat);
  jobs : list (outcome * nat);
  handed : nat;
  next_drv : nat;
}.

Definition on_hook (f : tracker -> tracker) (w : world) : world :=
  World (f (hook w)) (settled w) (locked w) (reactions w) (jobs w)
        (handed w) (next_drv w).

(** The component mounts: first render, nothing registered. *)
Definition mount (initialState : value) : world :=
  World (useAsync initialState) ∅ ∅ [] [] 0 0.

(** [Promise.prototype.then] called on promise [p] with the two
    continuations of [run]. *)
Definition promise_then (p : pid) (w : world) : value * world :=
  let d := next_drv w in
  (VPromise (Drv d),
   match settled w !! p with
   | Some o =>
       World (hook w) (settled w) (locked w) (reactions w)
             (jobs w ++ [(o, d)]) (handed w) (S d)
   | None =>
       World (hook w) (settled w) (locked w) (reactions w ++ [(p, d)])
             (jobs w) (handed w) (S d)
   end).

(** Promise [p] becomes fulfilled or rejected: the reactions waiting on
    it are queued, in the order they were registered. *)
Definition settle (p : pid) (o : outcome) (w : world) : world :=
  World (hook w) (<[p := o]> (settled w)) (delete p (locked w))
        (filter (fun r => r.1 ≠ p) (reactions w))
        (jobs w ++
           ((fun r => (o, r.2)) <$> filter (fun r => r.1 = p) (reactions w)))
        (handed w) (next_drv w).

(** The resolve function of promise [p] called with [v]: a promise
    resolved with itself is rejected with a TypeError, one resolved with a
    thenable follows it, and any other value fulfils it. *)
Definition resolve (p : pid) (v : value) (w : world) : world :=
  if strict_eq v (VPromise p) then settle p (Rejected (VTypeError p)) w
  else if awaitable v then
    World (hook w) (settled w) (<[p := v]> (locked w)) (reactions w)
          (jobs w) (handed w) (next_drv w)
  else settle p (Fulfilled v) w.

(** Of the two continuations [run] passed to [then], the one matching
    the outcome is called with the outcome's value. *)
Definition react (o : outcome) (t : tracker) : value * tracker :=
  match o with
  | Fulfilled x => onFulfilled x t
  | Rejected e => onRejected e t
  end.

(** A reaction job: the continuation runs, and what it returns resolves
    the promise [then] had returned. *)
Definition run_job (o : outcome) (d : nat) (w : world) : world :=
  let '(v, t) := react o (hook w) in
  resolve (Drv d) v (on_hook (fun _ => t) w).

(** *** [run] *)

Inductive error_object :=
| Error (message : string)
| TypeError.

(** How a call of [run] completes.  [Handed f this] is the tail call
    into a user-defined [then] method [f] with receiver [this]: [run]
    completes as that call does. *)
Inductive completion :=
| Returned (v : value)
| Threw (e : error_object)
| Handed (f : nat) (this : value).

Definition guard_message : string :=
  "The argument passed to useAsync().run must be a promise. Maybe a function that's passed isn't returning anything?".

Definition run (promise : value) (w : world) : completion * world :=
  if negb (truthy promise) then (Threw (Error guard_message), w) else
  match get promise "then" with
  | None => (Threw TypeError, w)
  | Some then_ =>
      if negb (truthy then_) then (Threw (Error guard_message), w) else
      let w := on_hook (safeSetState {[ "status" := VStr "pending" ]}) w in
      match then_, promise with
      | VPromiseThen, VPromise p =>
          let '(v, w) := promise_then p w in (Returned v, w)
      | VFunction f, _ =>
          (Handed f promise,
           World (hook w) (settled w) (locked w) (reactions w) (jobs w)
                 (S (handed w)) (next_drv w))
      | _, _ => (Threw TypeError, w)
      end
  end.

(** *** Traces *)

Inductive event :=
| Attach
| Detach
| Run (promise : value)
| SetData (data : value)
| SetError (error : value)
| Reset
| Settle (p : pid) (o : outcome)
| Tick
| UserCall (o : outcome).

(** The caller's code settles one of its promises, or the promise a
    [locked] one follows settles. *)
Definition can_settle (p : pid) (w : world) : bool :=
  match settled w !! p, p with
  | Some _, _ => false
  | None, Ext _ => true
  | None, Drv _ => bool_decide (is_Some (locked w !! p))
  end.

Definition step (e : event) (w : world) : world :=
  match e with
  | Attach => on_hook attach w
  | Detach => on_hook detach w
  | Run promise => (run promise w).2
  | SetData data => on_hook (setData data) w
  | SetError error => on_hook (setError error) w
  | Reset => on_hook reset w
  | Settle p o => if can_settle p w then settle p o w else w
  | Tick =>
      match jobs w with
      | [] => w
      | (o, d) :: rest =>
          run_job o d (World (hook w) (settled w) (locked w) (reactions w)
                             rest (handed w) (next_drv w))
      end
  | UserCall o =>
      match handed w with
      | O => w
      | S _ => on_hook (fun t => (react o t).2) w
      end
  end.

Definition exec (es : list event) (w : world) : world :=
  foldl (fun w e => step e w) w es.

(** *** Vocabulary of the specification *)

(** The four values of [status] in the state machine. *)
Definition statuses : list value :=
  [VStr "idle"; VStr "pending"; VStr "rejected"; VStr "resolved"].

Definition flags (v : view) : list bool :=
  [isIdle v; isLoading v; isError v; isSuccess v].

Definition count_true (l : list bool) : nat :=
  length (filter (fun b => b = true) l).

(** The snapshot resets to [idle], and [status] is one of the four. *)
Definition status_known (t : tracker) : Prop :=
  initialStateRef t !! "status" = Some (VStr "idle") /\
  field (state t) "status" ∈ statuses.

(** The snapshot is the one taken at construction, and the state has
    no property the snapshot lacks. *)
Definition within_snapshot (snapshot : gmap string value) (t : tracker) : Prop :=
  initialStateRef t = snapshot /\ dom (state t) ⊆ dom snapshot.

(** [n] turns of the microtask queue. *)
Definition ticks (n : nat) : list event := replicate n Tick.

(** The value a promise was fulfilled or rejected with. *)
Definition payload (o : outcome) : value :=
  match o with
  | Fulfilled v | Rejected v => v
  end.

(** The state shows outcome [o]: [resolved] with the value as [data], or
    [rejected] with the reason as [error].  The stored value is the
    outcome's own, so [===] to it unless it is [NaN]. *)
Definition tracks (o : outcome) (t : tracker) : Prop :=
  match o with
  | Fulfilled x =>
      field (state t) "status" = VStr "resolved" /\ field (state t) "data" = x
  | Rejected e =>
      field (state t) "status" = VStr "rejected" /\ field (state t) "error" = e
  end.

(** Promise [p] has just been resolved with [v]: it is fulfilled with
    [v]; or, when [v] is a thenable, it is bound to follow [v] and still
    pending; or, when [v] is [p] itself, it is rejected with the
    TypeError of a promise resolved with itself. *)
Definition resolved_with (p : pid) (v : value) (w : world) : Prop :=
  if strict_eq v (VPromise p) then
    settled w !! p = Some (Rejected (VTypeError p))
  else if awaitable v then locked w !! p = Some v /\ settled w !! p = None
  else settled w !! p = Some (Fulfilled v).

(** A mounted, attached tracker built with no argument. *)
Definition attached_default : world := step Attach (mount VUndefined).

(** A tracker torn down while a promise given to [run] is pending, and
    what may still reach it afterwards. *)
Definition torn_down : world :=
  exec [Attach; Run (VPromise (Ext 0)); Detach] (mount VUndefined).

Definition late_events : list event :=
  [Settle (Ext 0) (Fulfilled (VStr "late")); Tick;
   SetData VNull; SetError VNull; Reset].

(** What follows a call of [run] on promise 0: a manual [setData], then
    the promise fulfils. *)
Definition sample_after : list event :=
  [SetData (VStr "draft"); Settle (Ext 0) (Fulfilled (VStr "ok"))].

(** A caller overriding [data], and a history of one fulfilled [run]
    followed by [setError]. *)
Definition sample_overrides : value := VObject 0 [("data", VNum (Finite 7 0))].

Definition sample_history : list event :=
  [Attach; Run (VPromise (Ext 0));
   Settle (Ext 0) (Fulfilled (VStr "x")); Tick; SetError (VStr "e")].

(** The promises [then] has returned whose reaction job has not run
    yet. *)
Definition awaited (w : world) : list nat :=
  (snd <$> reactions w) ++ (snd <$> jobs w).

(** What holds of the promises of every world a mounted hook can be in:
    a promise [then] returned has one reaction job to come or none, it is
    neither settled nor locked before that job ran, and the identities
    not handed out yet are unused. *)
Definition well_formed (w : world) : Prop :=
  NoDup (awaited w) /\
  (forall d, d ∈ awaited w ->
     d < next_drv w /\ settled w !! Drv d = None /\ locked w !! Drv d = None) /\
  (forall d, next_drv w <= d ->
     settled w !! Drv d = None /\ locked w !! Drv d = None).

(** The continuations registered by the [then] call that returned [Drv d]
    wait for [p] to settle, or their job is in the queue. *)
Definition waiting (p : pid) (d : nat) (w : world) : Prop :=
  (p, d) ∈ reactions w /\ settled w !! p = None.

Definition queued (p : pid) (d : nat) (w : world) : Prop :=
  exists o, settled w !! p = Some o /\ (o, d) ∈ jobs w.

(** The part of the state a consumer observes. *)
Definition observable (t : tracker) : value * value * value :=
  (field (state t) "status", field (state t) "data", field (state t) "error").

End Async.

(** ** The grid helpers *)

Module Grid.
Import JS.

(** A grid is an array of rows of numbers. *)
Abbreviation grid := (list (list number)).

(** The second argument of [updateGridCellState], destructured as
    [{row, column}]. *)
Record coords := Coords {
  row : value;
  column : value;
}.

(** An array index as the number [map] passes to its callback. *)
Definition index (i : nat) : value :=
  VNum (Finite (Z.of_nat i) 0).

Definition hundred : number := Finite 100 0.

(** The literal [0.7]: the binary64 nearest to 7/10. *)
Definition seven_tenths : number := Finite 6305039478318694 (-53).

Section Random.

(** [draws i] is what the [i]-th call of [Math.random] returns; the
    state threaded through the code is the number of calls made. *)
Variable draws : nat -> number.

Definition random (k : nat) : number * nat := (draws k, S k).

(** [Math.random() * 100] *)
Definition fresh_cell (k : nat) : number * nat :=
  let '(r, k) := random k in (mul r hundred, k).

(** [Array.prototype.map] with a callback that may draw: the elements
    are visited in order, each with its index. *)
Fixpoint map_from {A B : Type} (f : A -> nat -> nat -> B * nat)
    (i : nat) (l : list A) (k : nat) : list B * nat :=
  match l with
  | [] => ([], k)
  | x :: l =>
      let '(y, k) := f x i k in
      let '(ys, k) := map_from f (S i) l k in
      (y :: ys, k)
  end.

(** [cell => (Math.random() > 0.7 ? Math.random() * 100 : cell)] *)
Definition regenerate (cell : number) (k : nat) : number * nat :=
  let '(r, k) := random k in
  if number_gt r seven_tenths then fresh_cell k else (cell, k).

Definition updateGridState (g : grid) (k : nat) : grid * nat :=
  map_from (fun row _ => map_from (fun cell _ => regenerate cell) 0 row) 0 g k.

Definition updateGridCellState (g : grid) (c : coords) (k : nat) : grid * nat :=
  map_from
    (fun cells rI k =>
       if strict_eq (index rI) (row c) then
         map_from
           (fun cell cI k =>
              if strict_eq (index cI) (column c) then fresh_cell k
              else (cell, k))
           0 cells k
       else (cells, k))
    0 g k.

End Random.

(** The cell at a position, if the grid has one there. *)
Definition cell_at (g : grid) (i j : nat) : option number :=
  g !! i ≫= fun cells => cells !! j.

(** The coordinates name position [(i, j)]. *)
Definition points_at (c : coords) (i j : nat) : bool :=
  strict_eq (index i) (row c) && strict_eq (index j) (column c).

(** A number in [[0, 100)]. *)
Definition in_range (n : number) : Prop :=
  exists m e, n = Finite m e /\ (0 <= to_Q m e < 100)%Q.

(** A random source whose draws are finite binary64 numbers in
    [[0, 1)]. *)
Definition unit_source (draws : nat -> number) : Prop :=
  forall i, exists m e,
    draws i = Finite m e /\ binary64 m e /\ (0 <= to_Q m e < 1)%Q.

Definition cells (g : grid) : nat := sum_list (length <$> g).

(** A source cycling through 0, 1/16, ..., 15/16, and the grid
    [[[1, 2], [3, 4]]]. *)
Definition sample_draws (i : nat) : number := Finite (Z.of_nat (i mod 16)) (-4).

Definition sample_grid : grid :=
  [[Finite 1 0; Finite 2 0]; [Finite 3 0; Finite 4 0]].

End Grid.

(** ** The debounced state hook *)

Module Debounce.
Import JS.

(** A timeout set and neither run nor cleared: its id, the time it falls
    due and the arguments its callback will get. *)
Record timer := Timer {
  timer_id : nat;
  due : nat;
  timer_args : list value;
}.

(** The delay the host gives a timeout asked for with [delay]
    milliseconds.  The timer initialisation steps of the HTML standard
    take the delay as a signed 32-bit integer (the number modulo [2^32],
    less [2^32] from [2^31] on) and a negative one as 0: a delay under
    [2^31] is kept, a larger one is cut short.  (Node takes 1 ms in place
    of a delay that does not fit; no host waits longer than asked.) *)
Definition host_delay (delay : nat) : nat :=
  let t := (N.of_nat delay mod 2 ^ 32)%N in
  if (t <? 2 ^ 31)%N then N.to_nat t else 0.

Section Debounce.

(** The state the callback [cb] works on, what a call of it with given
    arguments does to that state, and the delay in milliseconds. *)
Context {T : Type}.
Variable cb : list value -> T -> T.
Variable time : nat.

(** One closure made by [debounce(cb, time)] and the host's timers around
    it: the clock in milliseconds, the next timeout id, the timeouts this
    closure has set that have not run and were not cleared (in the order
    they were set), the closure's variable [timeout] ([None] is
    [undefined]), and the state [cb] works on. *)
Record world := World {
  now : nat;
  next_id : nat;
  timers : list timer;
  timeout : option nat;
  target : T;
}.

(** [clearTimeout(id)]: an id that names no timeout, [undefined]
    included, clears nothing. *)
Definition clearTimeout (id : option nat) (w : world) : world :=
  match id with
  | None => w
  | Some i =>
      World (now w) (next_id w)
            (filter (fun t => timer_id t <> i) (timers w))
            (timeout w) (target w)
  end.

(** [setTimeout(cb, delay, ...args)]: the timeout falls due after the
    delay the host makes of [delay]. *)
Definition setTimeout (delay : nat) (args : list value) (w : world)
    : nat * world :=
  (next_id w,
   World (now w) (S (next_id w))
         (timers w ++ [Timer (next_id w) (now w + host_delay delay) args])
         (timeout w) (target w)).

(** The function [debounce] returns:
    [(...args) => { clearTimeout(timeout); timeout = setTimeout(cb, time, ...args) }] *)
Definition debounced (args : list value) (w : world) : world :=
  let w := clearTimeout (timeout w) w in
  let '(id, w) := setTimeout time args w in
  World (now w) (next_id w) (timers w) (Some id) (target w).

(** The closure as [debounce] returns it, at time [t0]. *)
Definition debounce (t0 : nat) (s : T) : world := World t0 0 [] None s.

(** The first timeout that is due.  All timeouts here have the same
    delay, so the order they were set in is the order they fall due
    in. *)
Fixpoint first_due (t : nat) (l : list timer) : option (timer * list timer) :=
  match l with
  | [] => None
  | x :: l =>
      if (due x <=? t)%nat then Some (x, l)
      else match first_due t l with
           | Some (y, rest) => Some (y, x :: rest)
           | None => None
           end
  end.

(** What happens to the closure: it is called, time passes, or the host
    runs the task of a timeout that is due (no task runs early; one may
    run late). *)
Inductive event :=
| Call (args : list value)
| Advance (ms : nat)
| Fire.

Definition step (e : event) (w : world) : world :=
  match e with
  | Call args => debounced args w
  | Advance ms => World (now w + ms) (next_id w) (timers w) (timeout w) (target w)
  | Fire =>
      match first_due (now w) (timers w) with
      | Some (t, rest) =>
          World (now w) (next_id w) rest (timeout w) (cb (timer_args t) (target w))
      | None => w
      end
  end.

Definition exec (es : list event) (w : world) : world :=
  foldl (fun w e => step e w) w es.

(** *** Vocabulary *)

Definition is_call (e : event) : bool :=
  match e with
  | Call _ => true
  | _ => false
  end.

(** The time that passes during a list of events. *)
Definition elapsed (es : list event) : nat :=
  sum_list ((fun e => match e with Advance ms => ms | _ => 0 end) <$> es).

(** The events of a series of calls: each call followed by what happens
    before the next one; and the same with the host running a timeout at
    the end of each interval. *)
Definition burst_events (calls : list (list value * list event)) : list event :=
  flat_map (fun c => Call c.1 :: c.2) calls.

Definition spaced_events (calls : list (list value * list event)) : list event :=
  flat_map (fun c => Call c.1 :: c.2 ++ [Fire]) calls.

(** At most one timeout is pending, and it is the one [timeout] names. *)
Definition single_timer (w : world) : Prop :=
  (timers w = [] \/
   exists t, timers w = [t] /\ timeout w = Some (timer_id t)) /\
  (forall t, t ∈ timers w -> timer_id t < next_id w) /\
  (forall i, timeout w = Some i -> i < next_id w).

End Debounce.

Arguments world : clear implicits.

(** *** [useDebouncedState] *)

Section UseDebouncedState.

(** What a function of the caller returns on given arguments; a state
    initialiser or updater that throws is not modelled. *)
Variable apply : value -> list value -> value.

(** [React.useState(initialState)]: a function is called for the initial
    state. *)
Definition useState (initialState : value) : value :=
  if callable initialState then apply initialState [] else initialState.

(** The setter of [React.useState], called with [args]: the first
    argument is the new state, or an updater called with the current
    one. *)
Definition setState (args : list value) (state : value) : value :=
  let a := default VUndefined (head args) in
  if callable a then apply a [state] else a.

(** The hook at its first render, at time [t0]:
    [debounce(setState, 200)] around the state cell. *)
Definition useDebouncedState (initialState : value) (t0 : nat) : world value :=
  debounce t0 (useState initialState).

Definition debouncedSetState : list value -> world value -> world value :=
  debounced 200.

Definition hook_step : event -> world value -> world value :=
  step setState 200.

Definition hook_exec : list event -> world value -> world value :=
  exec setState 200.

End UseDebouncedState.

(** *** Samples *)

(** A callback that logs the arguments of each of its runs. *)
Definition log_call (args : list value) (log : list (list value))
    : list (list value) :=
  log ++ [args].

(** Two calls 50 ms apart; two calls each left alone for 250 ms. *)
Definition sample_burst : list (list value * list event) :=
  [([VNull], [Advance 50]); ([VBool false], [Advance 50; Fire])].

Definition sample_spaced : list (list value * list event) :=
  [([VNull], [Advance 250]); ([VBool false], [Advance 100; Advance 150])].

(** A caller with no functions among its values. *)
Definition no_function (f : value) (args : list value) : value := VUndefined.

End Debounce.

(** ** The forced re-render hook *)

Module Rerender.
Import JS.

(** [x + y] on numbers: the exact sum, rounded. *)
Definition add (x y : number) : number :=
  match x, y with
  | NaN, _ | _, NaN => NaN
  | Infinity s, Infinity t => if eqb s t then Infinity s else NaN
  | Infinity s, Finite _ _ | Finite _ _, Infinity s => Infinity s
  | Finite m1 e1, Finite m2 e2 =>
      let e := Z.min e1 e2 in
      round64 (m1 * 2 ^ (e1 - e) + m2 * 2 ^ (e2 - e)) e
  end.

(** [Object.is] on numbers, which is how React tells whether a dispatch
    changed the state; the sign of zero is not kept. *)
Definition same_value (x y : number) : bool :=
  match x, y with
  | NaN, NaN => true
  | _, _ => number_eq x y
  end.

(** [x => x + 1]; the action a dispatch passes is not looked at. *)
Definition reducer (x : number) (action : value) : number :=
  add x (Finite 1 0).

(** The state [React.useReducer(x => x + 1, 0)] starts from, which no
    one reads. *)
Definition initial : number := Finite 0 0.

(** The function [useForceRerender] returns, the dispatch of the
    reducer, called with [action]. *)
Definition forceRerender (action : value) (x : number) : number :=
  reducer x action.

(** The counter at [2^53], where adding one is lost in rounding. *)
Definition saturated : number := Finite (2 ^ 52) 1.

(** The state after a series of calls. *)
Definition after_calls (actions : list value) : number :=
  foldl (fun x a => forceRerender a x) initial actions.

End Rerender.

(** ** The grid component *)

Module AppGrid.
Import JS.

(** *** Elements *)

(** The event handlers [AppGrid] defines inline. *)
Inductive handler :=
| PreventDefault
| SetKeepUpdated
| ChangeRows
| ChangeColumns.

(** What a JSX attribute holds: a value, a style object, or one of the
    handlers. *)
Inductive attr :=
| AValue (v : value)
| AStyle (s : list (string * value))
| AHandler (h : handler).

(** The component an element is an instance of: [Interval], or the
    component the parent passed as [Cell]. *)
Inductive component :=
| IntervalComponent
| PropComponent (c : value).

(** A React element: a host element with its children, an instance of a
    component, a text, [null], or an array of elements. *)
#[warnings="-register-all"]
Inductive element :=
| Host (tag : string) (key : option value) (attrs : list (string * attr))
       (children : list element)
| Custom (type : component) (key : option value) (attrs : list (string * attr))
| Text (s : string)
| Null
| Items (l : list element).

(** *** Conversions *)

Section Render.

(** [ToNumber] of a string, an object or a function: parsing and the
    conversion to a primitive are the host's. *)
Variable to_number_of : value -> number.

(** [ToNumber] *)
Definition to_number (v : value) : number :=
  match v with
  | VUndefined => NaN
  | VNull => Finite 0 0
  | VBool b => Finite (if b then 1 else 0) 0
  | VNum n => n
  | _ => to_number_of v
  end.

(** A finite number with its fraction dropped. *)
Definition truncate (m e : Z) : Z :=
  if (0 <=? e)%Z then (m * 2 ^ e)%Z else Z.quot m (2 ^ (- e)).

(** [ToLength] *)
Definition to_length (n : number) : Z :=
  match n with
  | NaN => 0%Z
  | Infinity negative => if negative then 0%Z else (2 ^ 53 - 1)%Z
  | Finite m e => Z.min (Z.max 0 (truncate m e)) (2 ^ 53 - 1)
  end.

(** [Array.from({length})]: an array of that many [undefined], or [None]
    for the RangeError of an array longer than [2^32 - 1]. *)
Definition array_from_length (length : value) : option (list value) :=
  let len := to_length (to_number length) in
  if (len <=? 2 ^ 32 - 1)%Z then Some (replicate (Z.to_nat len) VUndefined)
  else None.

(** *** [AppGrid] *)

(** The props of [AppGrid]. *)
Record props := Props {
  onUpdateGrid : value;
  rows : value;
  handleRowsChange : value;
  columns : value;
  handleColumnsChange : value;
  Cell : value;
}.

(** The state [React.useState(false)] starts from. *)
Definition initial_keepUpdated : value := VBool false.

(** [<Cell key={column} row={row} column={column} />] *)
Definition cell (p : props) (row column : nat) : element :=
  Custom (PropComponent (Cell p)) (Some (Grid.index column))
         [("row", AValue (Grid.index row));
          ("column", AValue (Grid.index column))].

(** One row of the matrix: the [div] with the cells of row [row]. *)
Definition cell_row (p : props) (row : nat) : option element :=
  match array_from_length (columns p) with
  | Some cs =>
      Some (Host "div" (Some (Grid.index row))
                 [("style", AStyle [("display", VStr "flex")])]
                 [Items (imap (fun column _ => cell p row column) cs)])
  | None => None
  end.

(** [Array.from({length: rows}).map((r, row) => ...)]: the callback
    throws on the first row if it throws at all. *)
Definition cell_matrix (p : props) : option (list element) :=
  match array_from_length (rows p) with
  | Some rs => mapM id (imap (fun row _ => cell_row p row) rs)
  | None => None
  end.

(** The element [AppGrid] returns, with [keepUpdated] the current state;
    [None] when rendering throws. *)
Definition render (p : props) (keepUpdated : value) : option element :=
  let width := VNum (mul (to_number (columns p)) (Finite 40 0)) in
  match cell_matrix p with
  | None => None
  | Some matrix =>
  Some (Host "div" None [] [
    Host "form" None [("onSubmit", AHandler PreventDefault)] [
      Host "div" None [] [
        Host "button" None
             [("type", AValue (VStr "button"));
              ("onClick", AValue (onUpdateGrid p))]
             [Text "Update Grid Data"]
      ];
      Host "div" None [] [
        Host "label" None [("htmlFor", AValue (VStr "keepUpdated"))]
             [Text "Keep Grid Data updated"];
        Host "input" None
             [("id", AValue (VStr "keepUpdated"));
              ("checked", AValue keepUpdated);
              ("type", AValue (VStr "checkbox"));
              ("onChange", AHandler SetKeepUpdated)] [];
        if truthy keepUpdated then
          Custom IntervalComponent None
                 [("onInterval", AValue (onUpdateGrid p));
                  ("interval", AValue (VNum (Finite 500 0)))]
        else Null
      ];
      Host "div" None [] [
        Host "label" None [("htmlFor", AValue (VStr "rows"))]
             [Text "Rows to display: "];
        Host "input" None
             [("id", AValue (VStr "rows"));
              ("defaultValue", AValue (rows p));
              ("type", AValue (VStr "number"));
              ("min", AValue (VNum (Finite 1 0)));
              ("max", AValue (VNum (Finite 100 0)));
              ("onChange", AHandler ChangeRows)] []
      ];
      Host "div" None [] [
        Host "label" None [("htmlFor", AValue (VStr "columns"))]
             [Text "Columns to display: "];
        Host "input" None
             [("id", AValue (VStr "columns"));
              ("defaultValue", AValue (columns p));
              ("type", AValue (VStr "number"));
              ("min", AValue (VNum (Finite 1 0)));
              ("max", AValue (VNum (Finite 100 0)));
              ("onChange", AHandler ChangeColumns)] []
      ]
    ];
    Host "div" None
         [("style", AStyle [("width", VStr "100%");
                            ("maxWidth", VNum (Finite 410 0));
                            ("maxHeight", VNum (Finite 820 0));
                            ("overflow", VStr "scroll")])] [
      Host "div" None [("style", AStyle [("width", width)])] [Items matrix]
    ]
  ])
  end.

End Render.

(** *** The handlers *)






(** *** Vocabulary *)

(** The child at each step of a path down the tree. *)
Fixpoint descend (path : list nat) (el : element) : option element :=
  match path with
  | [] => Some el
  | i :: path =>
      match el with
      | Host _ _ _ children => children !! i ≫= descend path
      | Items l => l !! i ≫= descend path
      | _ => None
      end
  end.

(** The rows of the cell matrix in the element [render] returns, and the
    place of the [Interval]. *)
Definition matrix_path : list nat := [1; 0; 0]%nat.
Definition interval_path : list nat := [0; 1; 2]%nat.

(** The largest length an array can have. *)
Definition max_array_length : Z := (2 ^ 32 - 1)%Z.

(** Props asking for two rows of three cells, and a conversion that
    knows no string or object. *)
Definition sample_props : props :=
  Props (VFunction 1) (VNum (Finite 2 0)) (VFunction 2) (VNum (Finite 3 0))
        (VFunction 3) (VFunction 4).

Definition no_conversion (v : value) : number := NaN.


End AppGrid.

(** ** Properties of the async-state hook *)

Module AsyncProps.
Import JS Async.

(** *** State objects *)

Lemma field_reducer_set (s a : gmap string value) k v :
  a !! k = Some v -> field (reducer s a) k = v.
Proof.
  intros Ha. unfold field, reducer.
  by rewrite (lookup_union_Some_l a s k v Ha).
Qed.

Lemma field_reducer_keep (s a : gmap string value) k :
  a !! k = None -> field (reducer s a) k = field s k.
Proof.
  intros Ha. unfold field, reducer. by rewrite lookup_union_r.
Qed.

Lemma lookup_reducer_keep (s a : gmap string value) k :
  a !! k = None -> reducer s a !! k = s !! k.
Proof. intros Ha. unfold reducer. by rewrite lookup_union_r. Qed.

(** A value is [===] to itself, [NaN] apart. *)
Lemma strict_eq_same v : v <> VNum NaN -> strict_eq v v = true.
Proof.
  intros Hv. destruct v as [| |b|n|s|id props|id|p| |p];
    cbn [strict_eq]; try done.
  - by destruct b.
  - destruct n as [|s|m e]; [done | by destruct s |].
    cbn [number_eq]. unfold finite_compare. by rewrite Z.compare_refl.
  - apply String.eqb_refl.
  - apply Nat.eqb_refl.
  - apply Nat.eqb_refl.
  - by apply bool_decide_eq_true.
  - by apply bool_decide_eq_true.
Qed.

(** The gate: a detached tracker ignores every dispatch. *)
Lemma safeSetState_detached a t :
  mounted t = false -> safeSetState a t = t.
Proof. intros H. unfold safeSetState, useSafeDispatch. by rewrite H. Qed.

Lemma safeSetState_attached a t :
  mounted t = true -> safeSetState a t = setState a t.
Proof. intros H. unfold safeSetState, useSafeDispatch. by rewrite H. Qed.

Lemma mounted_safeSetState a t : mounted (safeSetState a t) = mounted t.
Proof. unfold safeSetState, useSafeDispatch. by destruct (mounted t) eqn:E. Qed.

Lemma initialStateRef_safeSetState a t :
  initialStateRef (safeSetState a t) = initialStateRef t.
Proof. unfold safeSetState, useSafeDispatch. by destruct (mounted t). Qed.

(** *** The hook along a step *)

Lemma hook_settle p o w : hook (settle p o w) = hook w.
Proof. reflexivity. Qed.

Lemma hook_resolve p v w : hook (resolve p v w) = hook w.
Proof.
  unfold resolve. destruct (strict_eq v (VPromise p)); [done|].
  by destruct (awaitable v).
Qed.

Lemma hook_promise_then p w : hook (promise_then p w).2 = hook w.
Proof. unfold promise_then. simpl. by destruct (settled w !! p). Qed.

Lemma hook_run_job o d w : hook (run_job o d w) = (react o (hook w)).2.
Proof.
  unfold run_job. destruct (react o (hook w)) as [v t].
  by rewrite hook_resolve.
Qed.

(** [run] touches the hook by at most the dispatch of [pending]. *)
Lemma hook_run promise w :
  hook (run promise w).2 = hook w \/
  hook (run promise w).2 = safeSetState {[ "status" := VStr "pending" ]} (hook w).
Proof.
  unfold run.
  destruct (negb (truthy promise)); [by left|].
  destruct (get promise "then") as [t|]; [|by left].
  destruct (negb (truthy t)); [by left|].
  right.
  destruct t; try reflexivity.
  destruct promise; try reflexivity.
  unfold promise_then; simpl. by destruct (settled w !! p).
Qed.

(** Whatever holds of the hook and survives each dispatch the code can
    make, and attaching and detaching, survives every step. *)
Lemma step_hook_ind (P : tracker -> Prop) :
  (forall t, P t -> P (attach t)) ->
  (forall t, P t -> P (detach t)) ->
  (forall t, P t -> P (safeSetState {[ "status" := VStr "pending" ]} t)) ->
  (forall t x, P t -> P (onFulfilled x t).2) ->
  (forall t x, P t -> P (onRejected x t).2) ->
  (forall t x, P t -> P (setData x t)) ->
  (forall t x, P t -> P (setError x t)) ->
  (forall t, P t -> P (reset t)) ->
  forall e w, P (hook w) -> P (hook (step e w)).
Proof.
  intros Hat Hde Hpe Hok Hko Hsd Hse Hre e w Hw.
  destruct e; cbn [step on_hook hook].
  - by apply Hat.
  - by apply Hde.
  - destruct (hook_run promise w) as [-> | ->]; [done | by apply Hpe].
  - by apply Hsd.
  - by apply Hse.
  - by apply Hre.
  - destruct (can_settle p w); [by rewrite hook_settle | done].
  - destruct (jobs w) as [|[o d] rest]; [done|].
    rewrite hook_run_job. cbn [hook].
    destruct o; [by apply Hok | by apply Hko].
  - destruct (handed w); [done|]. cbn [on_hook hook].
    destruct o; [by apply Hok | by apply Hko].
Qed.

Lemma exec_hook_ind (P : tracker -> Prop) :
  (forall e w, P (hook w) -> P (hook (step e w))) ->
  forall es w, P (hook w) -> P (hook (exec es w)).
Proof.
  intros Hstep es. induction es as [|e es IH]; intros w Hw; [done|].
  simpl. apply IH. by apply Hstep.
Qed.

Lemma exec_app es1 es2 w : exec (es1 ++ es2) w = exec es2 (exec es1 w).
Proof. unfold exec. apply foldl_app. Qed.

(** *** The derived flags *)

Lemma status_known_safeSetState a t :
  status_known t ->
  (a !! "status" = None \/ exists v, a !! "status" = Some v /\ v ∈ statuses) ->
  status_known (safeSetState a t).
Proof.
  intros [Hi Hs] Ha. split; [by rewrite initialStateRef_safeSetState|].
  unfold safeSetState, useSafeDispatch.
  destruct (mounted t); [|done]. cbn [setState state].
  destruct Ha as [Ha | (v & Ha & Hv)].
  - by rewrite field_reducer_keep.
  - by rewrite (field_reducer_set _ _ _ _ Ha).
Qed.

Lemma status_known_step e w :
  status_known (hook w) -> status_known (hook (step e w)).
Proof.
  apply step_hook_ind; clear.
  - by intros t [??].
  - by intros t [??].
  - intros t H. apply status_known_safeSetState; [done|].
    right. exists (VStr "pending"). split; [done|]. unfold statuses. set_solver.
  - intros t x H. apply status_known_safeSetState; [done|].
    right. exists (VStr "resolved"). split; [done|]. unfold statuses. set_solver.
  - intros t x H. apply status_known_safeSetState; [done|].
    right. exists (VStr "rejected"). split; [done|]. unfold statuses. set_solver.
  - intros t x H. apply status_known_safeSetState; [done|]. by left.
  - intros t x H. apply status_known_safeSetState; [done|]. by left.
  - intros t H. apply status_known_safeSetState; [done|].
    right. exists (VStr "idle"). split; [apply H|]. unfold statuses. set_solver.
Qed.

Lemma status_known_mount : status_known (hook (mount VUndefined)).
Proof. split; [done|]. unfold statuses. set_solver. Qed.

(** C1: after construction with the default initial state, whatever is
    called on the tracker and whatever its promises do, a render computes
    exactly one of [isIdle], [isLoading], [isError], [isSuccess] as true,
    and each flag is true exactly when [status] is the value it names. *)
Theorem flags_exactly_one (es : list event) :
  let v := render (hook (exec es (mount VUndefined))) in
  count_true (flags v) = 1 /\
  (isIdle v = true <-> status v = VStr "idle") /\
  (isLoading v = true <-> status v = VStr "pending") /\
  (isError v = true <-> status v = VStr "rejected") /\
  (isSuccess v = true <-> status v = VStr "resolved").
Proof.
  pose proof (exec_hook_ind status_known status_known_step es _
                status_known_mount) as [_ Hs].
  cbn zeta. unfold render, flags, count_true. cbn [isIdle isLoading isError isSuccess status].
  set (s := field _ "status") in *. clearbody s.
  unfold statuses in Hs.
  repeat (apply elem_of_cons in Hs as [-> | Hs]);
    [| | | | by apply elem_of_nil in Hs];
    (split; [reflexivity|]); repeat split; intros H; try done.
Qed.

(** *** Partial merges *)

Lemma state_safeSetState_keep a t k :
  a !! k = None -> state (safeSetState a t) !! k = state t !! k.
Proof.
  intros Ha. unfold safeSetState, useSafeDispatch.
  destruct (mounted t); [|done]. cbn [setState state].
  by apply lookup_reducer_keep.
Qed.

(** C7: the dispatches are partial merges.  [run] changes no property but
    [status] (so neither [data] nor [error]); the success continuation
    changes only [data] and [status] (a stored [error] stays); the failure
    continuation changes only [status] and [error] (stored [data] stays);
    [setData] changes only [data] and [setError] only [error]. *)
Theorem updates_are_partial_merges (w : world) (t : tracker) (x : value) :
  (forall promise k, k <> "status" ->
     state (hook (run promise w).2) !! k = state (hook w) !! k) /\
  (forall k, k <> "data" -> k <> "status" ->
     state (onFulfilled x t).2 !! k = state t !! k) /\
  (forall k, k <> "status" -> k <> "error" ->
     state (onRejected x t).2 !! k = state t !! k) /\
  (forall k, k <> "data" -> state (setData x t) !! k = state t !! k) /\
  (forall k, k <> "error" -> state (setError x t) !! k = state t !! k).
Proof.
  repeat split.
  - intros promise k Hk.
    destruct (hook_run promise w) as [-> | ->]; [done|].
    apply state_safeSetState_keep. by rewrite lookup_singleton_ne.
  - intros k Hd Hs. apply state_safeSetState_keep.
    rewrite lookup_insert_ne; [|done]. by rewrite lookup_singleton_ne.
  - intros k Hs He. apply state_safeSetState_keep.
    rewrite lookup_insert_ne; [|done]. by rewrite lookup_singleton_ne.
  - intros k Hd. apply state_safeSetState_keep. by rewrite lookup_singleton_ne.
  - intros k He. apply state_safeSetState_keep. by rewrite lookup_singleton_ne.
Qed.

(** *** The liveness gate *)

Lemma detached_step e w :
  e <> Attach -> mounted (hook w) = false ->
  mounted (hook (step e w)) = false /\ state (hook (step e w)) = state (hook w).
Proof.
  intros He Hm.
  assert (Hsafe : forall a, safeSetState a (hook w) = hook w)
    by (intros a; by apply safeSetState_detached).
  destruct e; cbn [step on_hook hook]; try done.
  - destruct (hook_run promise w) as [-> | ->]; [done|]. by rewrite Hsafe.
  - unfold setData. by rewrite Hsafe.
  - unfold setError. by rewrite Hsafe.
  - unfold reset. by rewrite Hsafe.
  - destruct (can_settle p w); [by rewrite hook_settle | done].
  - destruct (jobs w) as [|[o d] rest]; [done|].
    rewrite hook_run_job. cbn [hook].
    destruct o; cbn [react onFulfilled onRejected snd]; by rewrite Hsafe.
  - destruct (handed w); [done|]. cbn [on_hook hook].
    destruct o; cbn [react onFulfilled onRejected snd]; by rewrite Hsafe.
Qed.

(** C5: once the view is torn down ([mounted.current] is false) and as
    long as it is not attached again, nothing changes the state: not the
    settling of a promise given to [run] before the teardown, not its
    reaction job, not a call of [run], [setData], [setError] or [reset]. *)
Theorem detached_tracker_is_inert (es : list event) (w : world) :
  mounted (hook w) = false ->
  Forall (fun e => e <> Attach) es ->
  state (hook (exec es w)) = state (hook w) /\
  observable (hook (exec es w)) = observable (hook w).
Proof.
  intros Hm Hes.
  assert (H : mounted (hook (exec es w)) = false /\
              state (hook (exec es w)) = state (hook w)).
  { revert w Hm. induction Hes as [|e es He _ IH]; intros w Hm; [done|].
    simpl. destruct (detached_step e w He Hm) as [Hm' Hs'].
    destruct (IH _ Hm') as [Hm'' ->]. done. }
  destruct H as [_ H]. split; [done|]. unfold observable. by rewrite H.
Qed.

Lemma detached_tracker_is_inert_witness :
  mounted (hook torn_down) = false /\
  Forall (fun e => e <> Attach) late_events /\
  observable (hook (exec late_events torn_down)) = (VStr "pending", VNull, VNull).
Proof.
  assert (Hes : Forall (fun e => e <> Attach) late_events)
    by (repeat constructor; discriminate).
  split; [reflexivity|]. split; [exact Hes|].
  exact (proj2 (detached_tracker_is_inert late_events torn_down eq_refl Hes)).
Defined.

(** *** Reset *)

Lemma within_snapshot_safeSetState snapshot a t :
  within_snapshot snapshot t -> dom a ⊆ dom snapshot ->
  within_snapshot snapshot (safeSetState a t).
Proof.
  intros [Hi Hs] Ha. split; [by rewrite initialStateRef_safeSetState|].
  unfold safeSetState, useSafeDispatch.
  destruct (mounted t); [|done]. cbn [setState state]. unfold reducer.
  rewrite dom_union_L. set_solver.
Qed.

Lemma snapshot_has_defaults (overrides : gmap string value) :
  {[ "status"; "data"; "error" ]} ⊆@{gset string} dom (overrides ∪ defaultInitialState).
Proof.
  rewrite dom_union_L. unfold defaultInitialState.
  rewrite !dom_insert_L, dom_singleton_L. set_solver.
Qed.

Lemma within_snapshot_step initialState e w :
  within_snapshot (own_props initialState ∪ defaultInitialState) (hook w) ->
  within_snapshot (own_props initialState ∪ defaultInitialState) (hook (step e w)).
Proof.
  pose proof (snapshot_has_defaults (own_props initialState)) as Hd.
  apply step_hook_ind; clear e w.
  - by intros t [??].
  - by intros t [??].
  - intros t H. apply within_snapshot_safeSetState; [done|].
    rewrite dom_singleton_L. set_solver.
  - intros t x H. apply within_snapshot_safeSetState; [done|].
    rewrite dom_insert_L, dom_singleton_L. set_solver.
  - intros t x H. apply within_snapshot_safeSetState; [done|].
    rewrite dom_insert_L, dom_singleton_L. set_solver.
  - intros t x H. apply within_snapshot_safeSetState; [done|].
    rewrite dom_singleton_L. set_solver.
  - intros t x H. apply within_snapshot_safeSetState; [done|].
    rewrite dom_singleton_L. set_solver.
  - intros t H. apply within_snapshot_safeSetState; [done|].
    destruct H as [-> _]. done.
Qed.

Lemma reducer_covers (s a : gmap string value) :
  dom s ⊆ dom a -> reducer s a = a.
Proof.
  intros Hd. apply map_eq. intros k. unfold reducer.
  destruct (a !! k) as [v|] eqn:Ha.
  - by rewrite (lookup_union_Some_l a s k v Ha).
  - rewrite lookup_union_r; [|done].
    apply not_elem_of_dom. apply not_elem_of_dom in Ha. set_solver.
Qed.

(** C6: whatever the caller's initial overrides and whatever has happened
    since construction, [reset()] on an attached tracker makes the state
    the object captured at construction, the defaults overridden by the
    caller's properties; [status], [data] and [error] are those of that
    object. *)
Theorem reset_restores_snapshot (initialState : value) (es : list event) :
  let snapshot := own_props initialState ∪ defaultInitialState in
  let w := exec es (mount initialState) in
  mounted (hook w) = true ->
  state (hook (step Reset w)) = snapshot /\
  observable (hook (step Reset w)) =
    (field snapshot "status", field snapshot "data", field snapshot "error").
Proof.
  intros snapshot w Hm.
  assert (Hw : within_snapshot snapshot (hook w)).
  { apply exec_hook_ind; [apply within_snapshot_step|]. by split. }
  assert (Hs : state (hook (step Reset w)) = snapshot).
  { cbn [step on_hook hook]. unfold reset.
    rewrite safeSetState_attached; [|done]. cbn [setState state].
    destruct Hw as [-> Hd]. by apply reducer_covers. }
  split; [done|]. unfold observable. by rewrite Hs.
Qed.

Lemma reset_restores_snapshot_witness :
  mounted (hook (exec sample_history (mount sample_overrides))) = true /\
  observable (hook (step Reset (exec sample_history (mount sample_overrides)))) =
    (VStr "idle", VNum (Finite 7 0), VNull).
Proof.
  split; [reflexivity|].
  exact (proj2 (reset_restores_snapshot sample_overrides sample_history eq_refl)).
Defined.

(** *** The microtask queue *)

Lemma jobs_resolve p v w : exists more, jobs (resolve p v w) = jobs w ++ more.
Proof.
  unfold resolve. destruct (strict_eq v (VPromise p)); [eexists; reflexivity|].
  destruct (awaitable v).
  - exists []. cbn [jobs]. by rewrite app_nil_r.
  - eexists. reflexivity.
Qed.

Lemma jobs_run_job o d w : exists more, jobs (run_job o d w) = jobs w ++ more.
Proof.
  unfold run_job. destruct (react o (hook w)) as [v t].
  destruct (jobs_resolve (Drv d) v (on_hook (fun _ => t) w)) as [more H].
  by exists more.
Qed.

Lemma mounted_react o t : mounted (react o t).2 = mounted t.
Proof.
  destruct o; cbn [react onFulfilled onRejected snd];
    apply mounted_safeSetState.
Qed.

Lemma payload_react o t : (react o t).1 = payload o.
Proof. by destruct o. Qed.

Lemma tracks_react o t : mounted t = true -> tracks o (react o t).2.
Proof.
  intros Hm.
  destruct o; cbn [react onFulfilled onRejected snd tracks];
    rewrite safeSetState_attached by done; cbn [setState state];
    split; by apply field_reducer_set.
Qed.

Lemma resolved_with_resolve p v w :
  settled w !! p = None -> resolved_with p v (resolve p v w).
Proof.
  intros Hp. unfold resolved_with, resolve.
  destruct (strict_eq v (VPromise p)).
  - cbn [settle settled]. apply lookup_insert_eq.
  - destruct (awaitable v).
    + cbn [locked settled]. split; [apply lookup_insert_eq | exact Hp].
    + cbn [settle settled]. apply lookup_insert_eq.
Qed.

Lemma resolved_with_run_job o d w :
  settled w !! Drv d = None ->
  resolved_with (Drv d) (payload o) (run_job o d w).
Proof.
  intros Hd. unfold run_job. rewrite <- (payload_react o (hook w)).
  destruct (react o (hook w)) as [v t]. by apply resolved_with_resolve.
Qed.

(** [run] on a promise: the guard passes, [pending] is dispatched and the
    continuations are registered; the call returns the promise [then]
    makes. *)
Lemma run_promise p w :
  run (VPromise p) w =
  (Returned (VPromise (Drv (next_drv w))),
   (promise_then p
      (on_hook (safeSetState {[ "status" := VStr "pending" ]}) w)).2).
Proof. reflexivity. Qed.

(** *** Well-formed worlds *)

Lemma well_formed_mount initialState : well_formed (mount initialState).
Proof.
  split; [constructor|]. split; [intros d Hd; by apply elem_of_nil in Hd|].
  intros d _. by split.
Qed.

Lemma awaited_promise_then p w :
  awaited (promise_then p w).2 ≡ₚ next_drv w :: awaited w.
Proof.
  unfold promise_then, awaited. cbn [snd].
  destruct (settled w !! p); cbn [reactions jobs]; rewrite fmap_app;
    cbn [fmap list_fmap snd].
  - rewrite app_assoc. by rewrite <- Permutation_cons_append.
  - rewrite <- app_assoc. cbn [app]. by rewrite <- Permutation_middle.
Qed.

Lemma well_formed_promise_then p w :
  well_formed w -> well_formed (promise_then p w).2.
Proof.
  intros (Hnd & Haw & Hfresh).
  assert (Hs : settled (promise_then p w).2 = settled w)
    by (unfold promise_then; cbn [snd]; by destruct (settled w !! p)).
  assert (Hl : locked (promise_then p w).2 = locked w)
    by (unfold promise_then; cbn [snd]; by destruct (settled w !! p)).
  assert (Hn : next_drv (promise_then p w).2 = S (next_drv w))
    by (unfold promise_then; cbn [snd]; by destruct (settled w !! p)).
  unfold well_formed. rewrite Hs, Hl, Hn.
  split; [|split].
  - rewrite awaited_promise_then. apply NoDup_cons. split; [|done].
    intros Hin. apply Haw in Hin. lia.
  - intros d Hd. rewrite awaited_promise_then in Hd.
    apply elem_of_cons in Hd as [-> | Hd].
    + split; [lia|]. by apply Hfresh.
    + destruct (Haw d Hd) as (? & ? & ?). split; [lia | done].
  - intros d Hd. apply Hfresh. lia.
Qed.

Lemma awaited_settle p o w : awaited (settle p o w) ≡ₚ awaited w.
Proof.
  unfold awaited. cbn [settle reactions jobs].
  rewrite fmap_app, <- list_fmap_compose.
  change (snd ∘ (fun r : pid * nat => (o, r.2))) with (@snd pid nat).
  rewrite (Permutation_app_comm (snd <$> jobs w)), app_assoc.
  rewrite <- fmap_app.
  rewrite (Permutation_app_comm (filter _ _)).
  by rewrite (filter_app_complement (fun r : pid * nat => r.1 = p)
                                    (reactions w)).
Qed.

(** Settling a promise that awaits no reaction job of its own. *)
Lemma well_formed_settle p o w :
  well_formed w ->
  (forall d, p = Drv d -> (d ∉ awaited w) /\ d < next_drv w) ->
  well_formed (settle p o w).
Proof.
  intros (Hnd & Haw & Hfresh) Hp. unfold well_formed.
  cbn [settle settled locked next_drv].
  split; [by rewrite awaited_settle|]. split.
  - intros d Hd. rewrite awaited_settle in Hd.
    destruct (Haw d Hd) as (Hlt & Hs & Hl). split; [done|].
    assert (Hne : p <> Drv d) by (intros ->; by destruct (Hp d eq_refl)).
    rewrite lookup_insert_ne by done. rewrite lookup_delete_ne by done. done.
  - intros d Hd. destruct (Hfresh d Hd) as [Hs Hl].
    assert (Hne : p <> Drv d) by (intros ->; destruct (Hp d eq_refl); lia).
    rewrite lookup_insert_ne by done. rewrite lookup_delete_ne by done. done.
Qed.

Lemma well_formed_resolve d v w :
  well_formed w -> d ∉ awaited w -> d < next_drv w ->
  well_formed (resolve (Drv d) v w).
Proof.
  intros Hw Hd Hlt. unfold resolve.
  destruct (strict_eq v (VPromise (Drv d)));
    [apply well_formed_settle; [done|]; by intros d' [= <-]|].
  destruct (awaitable v).
  - destruct Hw as (Hnd & Haw & Hfresh). unfold well_formed, awaited.
    cbn [settled locked next_drv reactions jobs].
    split; [done|]. split.
    + intros d' Hd'. destruct (Haw d' Hd') as (? & ? & ?).
      split; [done|]. split; [done|].
      rewrite lookup_insert_ne; [done|]. intros [= ->]. done.
    + intros d' Hd'. destruct (Hfresh d' Hd') as [? ?]. split; [done|].
      rewrite lookup_insert_ne; [done|]. intros [= ->]. lia.
  - apply well_formed_settle; [done|]. by intros d' [= <-].
Qed.

Lemma well_formed_run_job o d rest w :
  well_formed w -> jobs w = (o, d) :: rest ->
  well_formed (run_job o d (World (hook w) (settled w) (locked w) (reactions w)
                                   rest (handed w) (next_drv w))).
Proof.
  intros (Hnd & Haw & Hfresh) Hj. unfold run_job.
  destruct (react o _) as [v t].
  assert (Hperm : awaited w ≡ₚ d :: (snd <$> reactions w) ++ (snd <$> rest)).
  { unfold awaited. rewrite Hj. cbn [fmap list_fmap snd].
    by rewrite <- Permutation_middle. }
  rewrite Hperm in Hnd. apply NoDup_cons in Hnd as [Hd Hnd].
  apply well_formed_resolve.
  - split; [done|]. split; [|done].
    intros d' Hd'. apply Haw. rewrite Hperm. by right.
  - done.
  - apply Haw. rewrite Hperm. by left.
Qed.

Lemma well_formed_step e w : well_formed w -> well_formed (step e w).
Proof.
  intros Hw. destruct e; cbn [step]; try exact Hw.
  - unfold run.
    destruct (negb (truthy promise)); [done|].
    destruct (get promise "then") as [t|]; [|done].
    destruct (negb (truthy t)); [done|].
    destruct t; try exact Hw.
    destruct promise; try exact Hw.
    rewrite (surjective_pairing (promise_then _ _)). cbn [snd].
    by apply well_formed_promise_then.
  - destruct (can_settle p w) eqn:Hc; [|done].
    apply well_formed_settle; [done|].
    intros d ->. unfold can_settle in Hc.
    destruct (settled w !! Drv d); [done|].
    apply bool_decide_eq_true in Hc as [v Hv].
    destruct Hw as (_ & Haw & Hfresh). split.
    + intros Hin. destruct (Haw d Hin) as (_ & _ & Hl). congruence.
    + destruct (decide (d < next_drv w)); [done|].
      destruct (Hfresh d) as [_ Hl]; [lia | congruence].
  - destruct (jobs w) as [|[o d] rest] eqn:Hj; [done|].
    by apply well_formed_run_job.
  - by destruct (handed w).
Qed.

(** *** Settled promises stay as they are *)

Lemma settled_settle_other q q' o o' w :
  settled w !! q' = Some o' -> settled w !! q = None ->
  settled (settle q o w) !! q' = Some o'.
Proof.
  intros Hq' Hq. cbn [settle settled].
  rewrite lookup_insert_ne; [done|]. intros ->. congruence.
Qed.

Lemma settled_resolve_other d v q o w :
  settled w !! q = Some o -> settled w !! Drv d = None ->
  settled (resolve (Drv d) v w) !! q = Some o.
Proof.
  intros Hq Hd. unfold resolve.
  destruct (strict_eq v (VPromise (Drv d))); [by apply settled_settle_other|].
  destruct (awaitable v); [done|].
  by apply settled_settle_other.
Qed.

Lemma settled_run promise w : settled (run promise w).2 = settled w.
Proof.
  unfold run.
  destruct (negb (truthy promise)); [done|].
  destruct (get promise "then") as [t|]; [|done].
  destruct (negb (truthy t)); [done|].
  destruct t; try reflexivity. destruct promise; try reflexivity.
  unfold promise_then. cbn [snd]. by destruct (settled _ !! p).
Qed.

Lemma head_job_unsettled o d rest w :
  well_formed w -> jobs w = (o, d) :: rest -> settled w !! Drv d = None.
Proof.
  intros (_ & Haw & _) Hj. apply Haw. unfold awaited. rewrite Hj.
  apply elem_of_app. right. by left.
Qed.

Lemma settled_stable_step e w q o :
  well_formed w -> settled w !! q = Some o -> settled (step e w) !! q = Some o.
Proof.
  intros Hw Hq. destruct e; cbn [step]; try exact Hq.
  - by rewrite settled_run.
  - destruct (can_settle p w) eqn:Hc; [|done].
    apply settled_settle_other; [done|].
    unfold can_settle in Hc. by destruct (settled w !! p).
  - destruct (jobs w) as [|[o1 d1] rest] eqn:Hj; [done|].
    unfold run_job. destruct (react o1 _) as [v t].
    apply settled_resolve_other; [done|].
    exact (head_job_unsettled _ _ _ _ Hw Hj).
  - by destruct (handed w).
Qed.

Lemma well_formed_exec es : forall w, well_formed w -> well_formed (exec es w).
Proof.
  induction es as [|e es IH]; intros w Hw; [done|].
  apply IH. by apply well_formed_step.
Qed.

Lemma settled_stable es : forall w q o,
  well_formed w -> settled w !! q = Some o -> settled (exec es w) !! q = Some o.
Proof.
  induction es as [|e es IH]; intros w q o Hw Hq; [done|].
  apply IH; [by apply well_formed_step | by apply settled_stable_step].
Qed.

(** *** A registered reaction runs *)

Lemma pending_settle p d q o w :
  waiting p d w \/ queued p d w -> settled w !! q = None ->
  waiting p d (settle q o w) \/ queued p d (settle q o w).
Proof.
  intros [[Hr Hs] | (o' & Hs & Hj)] Hq.
  - destruct (decide (q = p)) as [-> | Hne].
    + right. exists o. cbn [settle settled jobs]. split; [apply lookup_insert_eq|].
      apply elem_of_app. right. apply list_elem_of_fmap.
      exists (p, d). split; [done|]. by apply list_elem_of_filter.
    + left. split.
      * cbn [settle reactions]. apply list_elem_of_filter. split; [|done].
        cbn. congruence.
      * cbn [settle settled]. by rewrite lookup_insert_ne.
  - right. exists o'. split; [by apply settled_settle_other|].
    cbn [settle jobs]. apply elem_of_app. by left.
Qed.

Lemma pending_resolve p d d1 v w :
  waiting p d w \/ queued p d w -> settled w !! Drv d1 = None ->
  waiting p d (resolve (Drv d1) v w) \/ queued p d (resolve (Drv d1) v w).
Proof.
  intros Hp Hd. unfold resolve.
  destruct (strict_eq v (VPromise (Drv d1))); [by apply pending_settle|].
  destruct (awaitable v); [exact Hp|].
  by apply pending_settle.
Qed.

Lemma pending_run p d promise w :
  waiting p d w \/ queued p d w ->
  waiting p d (run promise w).2 \/ queued p d (run promise w).2.
Proof.
  intros Hp. unfold run.
  destruct (negb (truthy promise)); [done|].
  destruct (get promise "then") as [t|]; [|done].
  destruct (negb (truthy t)); [done|].
  destruct t; try exact Hp. destruct promise; try exact Hp.
  unfold promise_then. cbn [snd]. set (w1 := on_hook _ w).
  destruct Hp as [[Hr Hs] | (o' & Hs & Hj)].
  - left. destruct (settled w1 !! p0); (split; [|exact Hs]);
      cbn [reactions]; [exact Hr | apply elem_of_app; by left].
  - right. exists o'. destruct (settled w1 !! p0); (split; [exact Hs|]);
      cbn [jobs]; [apply elem_of_app; by left | exact Hj].
Qed.

(** One event later the continuations still wait or their job is still
    queued, unless the event was the turn of the queue that ran it. *)
Lemma pending_step p d e w :
  well_formed w -> waiting p d w \/ queued p d w ->
  (waiting p d (step e w) \/ queued p d (step e w)) \/
  (e = Tick /\ exists o rest, jobs w = (o, d) :: rest /\ settled w !! p = Some o).
Proof.
  intros Hw Hp. destruct e; cbn [step]; try (left; exact Hp).
  - left. by apply pending_run.
  - left. destruct (can_settle p0 w) eqn:Hc; [|done].
    apply pending_settle; [done|].
    unfold can_settle in Hc. by destruct (settled w !! p0).
  - destruct (jobs w) as [|[o1 d1] rest] eqn:Hj.
    { left. exact Hp. }
    pose proof (head_job_unsettled _ _ _ _ Hw Hj) as Hd1.
    destruct (decide (d1 = d)) as [-> | Hne].
    + destruct Hp as [[Hr Hs] | (o' & Hs & Hin)].
      * exfalso. destruct Hw as (Hnd & _ & _). unfold awaited in Hnd.
        apply NoDup_app in Hnd as (_ & Hdis & _).
        apply (Hdis d).
        -- apply list_elem_of_fmap. by exists (p, d).
        -- rewrite Hj. by left.
      * right. split; [done|]. exists o1, rest. split; [done|].
        rewrite Hj in Hin. apply elem_of_cons in Hin as [[= ->] | Hin]; [done|].
        exfalso. destruct Hw as (Hnd & _ & _). unfold awaited in Hnd.
        apply NoDup_app in Hnd as (_ & _ & Hnd). rewrite Hj in Hnd.
        cbn [fmap list_fmap snd] in Hnd. apply NoDup_cons in Hnd as [Hn _].
        apply Hn. apply list_elem_of_fmap. by exists (o', d).
    + left. unfold run_job. destruct (react o1 _) as [v t].
      apply pending_resolve; [|done].
      destruct Hp as [Hwait | (o' & Hs & Hin)]; [by left|].
      right. exists o'. split; [done|]. cbn [on_hook jobs].
      rewrite Hj in Hin. apply elem_of_cons in Hin as [[= _ ->] | Hin]; done.
  - left. by destruct (handed w).
Qed.

Lemma ticks_reach_head pre : forall w o d post,
  jobs w = pre ++ (o, d) :: post ->
  exists rest, jobs (exec (ticks (length pre)) w) = (o, d) :: rest.
Proof.
  induction pre as [|[o0 d0] pre IH]; intros w o d post Hj.
  - by exists post.
  - change (exec (ticks (length ((o0, d0) :: pre))) w)
      with (exec (ticks (length pre)) (step Tick w)).
    cbn [step]. rewrite Hj. cbn [app].
    set (w0 := World (hook w) (settled w) (locked w) (reactions w)
                     (pre ++ (o, d) :: post) (handed w) (next_drv w)).
    destruct (jobs_run_job o0 d0 w0) as [more Hmore].
    apply (IH _ o d (post ++ more)).
    rewrite Hmore. subst w0. cbn [jobs]. by rewrite <- app_assoc.
Qed.

(** If the promise has outcome [o] by the end of the events [after],
    then during them or some turns of the queue later there is a turn
    that finds the job for [o] at the head of the queue. *)
Lemma reaction_fires after : forall w p d o,
  well_formed w -> waiting p d w \/ queued p d w ->
  settled (exec after w) !! p = Some o ->
  exists n pre rest,
    (pre ++ [Tick]) `prefix_of` (after ++ ticks n) /\
    jobs (exec pre w) = (o, d) :: rest.
Proof.
  induction after as [|e after IH]; intros w p d o Hw Hp Hs.
  - cbn [exec foldl] in Hs.
    destruct Hp as [[_ Hn] | (o' & Hs' & Hin)]; [congruence|].
    assert (o' = o) as -> by congruence.
    apply list_elem_of_split in Hin as (pre & post & Hj).
    destruct (ticks_reach_head pre w o d post Hj) as [rest Hrest].
    exists (S (length pre)), (ticks (length pre)), rest. split; [|done].
    cbn [app]. unfold ticks. rewrite <- replicate_S_end. reflexivity.
  - destruct (pending_step p d e w Hw Hp) as [Hp' | (-> & o' & rest & Hj & Hs')].
    + destruct (IH (step e w) p d o (well_formed_step e w Hw) Hp' Hs)
        as (n & pre & rest & Hpre & Hj).
      exists n, (e :: pre), rest. split; [|done].
      cbn [app]. by apply prefix_cons.
    + assert (o' = o) as ->.
      { pose proof (settled_stable (Tick :: after) w p o' Hw Hs') as H.
        congruence. }
      exists 0, [], rest. split; [|done].
      cbn [app]. apply prefix_cons, prefix_nil.
Qed.

Lemma mounted_step e w :
  e <> Detach -> mounted (hook w) = true -> mounted (hook (step e w)) = true.
Proof.
  intros He Hm. destruct e; cbn [step on_hook hook]; try done.
  - destruct (hook_run promise w) as [-> | ->]; [done|].
    by rewrite mounted_safeSetState.
  - unfold setData. by rewrite mounted_safeSetState.
  - unfold setError. by rewrite mounted_safeSetState.
  - unfold reset. by rewrite mounted_safeSetState.
  - destruct (can_settle p w); [by rewrite hook_settle | done].
  - destruct (jobs w) as [|[o d] rest]; [done|].
    by rewrite hook_run_job, mounted_react.
  - destruct (handed w); [done|]. cbn [on_hook hook]. by rewrite mounted_react.
Qed.

Lemma mounted_exec es : forall w,
  Forall (fun e => e <> Detach) es -> mounted (hook w) = true ->
  mounted (hook (exec es w)) = true.
Proof.
  induction es as [|e es IH]; intros w Hes Hm; [done|].
  apply Forall_cons in Hes as [He Hes].
  apply IH; [done|]. by apply mounted_step.
Qed.

Lemma Forall_ticks (P : event -> Prop) n : P Tick -> Forall P (ticks n).
Proof. intros H. unfold ticks. by apply Forall_replicate. Qed.

(** After [run] on a promise the continuations wait on it or their job is
    queued. *)
Lemma pending_after_run p w :
  waiting p (next_drv w) (run (VPromise p) w).2 \/
  queued p (next_drv w) (run (VPromise p) w).2.
Proof.
  rewrite run_promise. set (w1 := on_hook _ w).
  unfold promise_then. cbn [snd]. change (next_drv w1) with (next_drv w).
  destruct (settled w1 !! p) as [o|] eqn:Hs.
  - right. exists o. split; [done|]. cbn [jobs].
    apply elem_of_app. right. by left.
  - left. split; [|done]. cbn [reactions].
    apply elem_of_app. right. by left.
Qed.

(** The turn that runs the job of a [run] call, for a promise that has
    outcome [o] by the end of [after]. *)
Lemma run_reaction_fires initialState before after p o :
  let w := exec before (mount initialState) in
  settled (exec after (run (VPromise p) w).2) !! p = Some o ->
  exists n pre w',
    (pre ++ [Tick]) `prefix_of` (after ++ ticks n) /\
    exec (pre ++ [Tick]) (run (VPromise p) w).2 = run_job o (next_drv w) w' /\
    hook w' = hook (exec pre (run (VPromise p) w).2).
Proof.
  intros w Hs.
  assert (Hw : well_formed (run (VPromise p) w).2).
  { apply (well_formed_step (Run (VPromise p))).
    apply well_formed_exec, well_formed_mount. }
  destruct (reaction_fires after _ p (next_drv w) o Hw (pending_after_run p w) Hs)
    as (n & pre & rest & Hpre & Hj).
  exists n, pre. eexists. split; [done|].
  rewrite exec_app. cbn [exec foldl step]. fold (exec pre (run (VPromise p) w).2).
  rewrite Hj. split; reflexivity.
Qed.

(** *** What [run] does with an awaitable *)

(** C2: whatever happened to the tracker before, [run] given a promise on
    an attached tracker returns normally; and whatever happens afterwards
    short of a teardown, if the promise has outcome [o] by then (it had
    settled with [o] before the call, or it settles with [o] after it),
    there is a moment, among those events or some turns of the microtask
    queue later, at which the state shows [o]: status [resolved] and the
    value as [data], or status [rejected] and the reason as [error].  The
    same holds of a thenable with a [then] method of its own, at the
    moment that method calls the continuation it was handed.  Nothing is
    thrown. *)
Theorem run_tracks_outcome
    (initialState : value) (before after : list event) (p : pid) (o : outcome) :
  let w := exec before (mount initialState) in
  mounted (hook w) = true ->
  Forall (fun e => e <> Detach) after ->
  settled (exec after (run (VPromise p) w).2) !! p = Some o ->
  (run (VPromise p) w).1 = Returned (VPromise (Drv (next_drv w))) /\
  (exists n moment,
     moment `prefix_of` (after ++ ticks n) /\
     tracks o (hook (exec moment (run (VPromise p) w).2))) /\
  (forall this f o',
     truthy this = true -> get this "then" = Some (VFunction f) ->
     (run this w).1 = Handed f this /\
     tracks o' (hook (step (UserCall o') (run this w).2))).
Proof.
  intros w Hm Hafter Hs. split; [reflexivity|]. split.
  - destruct (run_reaction_fires initialState before after p o Hs)
      as (n & pre & w' & Hpre & He & Hh).
    exists n, (pre ++ [Tick]). split; [done|].
    fold w in He, Hh. rewrite He, hook_run_job, Hh.
    apply tracks_react. apply mounted_exec.
    + assert (Hall : Forall (fun e => e <> Detach) (after ++ ticks n)).
      { apply Forall_app. split; [done|]. by apply Forall_ticks. }
      destruct Hpre as [k Hk]. rewrite Hk in Hall.
      apply Forall_app in Hall as [Hall _].
      by apply Forall_app in Hall as [Hall _].
    + apply (mounted_step (Run (VPromise p))); done.
  - intros this f o' Ht Hg. unfold run. rewrite Ht, Hg. cbn [negb truthy].
    split; [reflexivity|]. cbn [snd step handed on_hook hook].
    apply tracks_react. by rewrite mounted_safeSetState.
Qed.

Lemma run_tracks_outcome_witness :
  mounted (hook (exec [Attach] (mount VUndefined))) = true /\
  Forall (fun e => e <> Detach) sample_after /\
  settled (exec sample_after
             (run (VPromise (Ext 0)) (exec [Attach] (mount VUndefined))).2)
    !! Ext 0 = Some (Fulfilled (VStr "ok")) /\
  exists n moment,
    moment `prefix_of` (sample_after ++ ticks n) /\
    tracks (Fulfilled (VStr "ok"))
      (hook (exec moment
               (run (VPromise (Ext 0)) (exec [Attach] (mount VUndefined))).2)).
Proof.
  assert (Hafter : Forall (fun e => e <> Detach) sample_after)
    by (repeat constructor; discriminate).
  split; [reflexivity|]. split; [exact Hafter|]. split; [reflexivity|].
  exact (proj1 (proj2 (run_tracks_outcome VUndefined [Attach] sample_after
                         (Ext 0) (Fulfilled (VStr "ok"))
                         eq_refl Hafter eq_refl))).
Defined.

Lemma prefix_ticks m n : m `prefix_of` ticks n -> exists k, m = ticks k.
Proof.
  intros [rest H]. exists (length m).
  unfold ticks in *.
  assert (Hall : Forall (fun e => e = Tick) (m ++ rest)).
  { rewrite <- H. apply Forall_replicate. reflexivity. }
  apply Forall_app in Hall as [Hall _].
  clear H. induction Hall as [|e m -> _ IH]; [done|].
  cbn. by rewrite <- IH.
Qed.

(** C4 as stated fails: a promise is given to [run] and then rejected
    with ["boom"]; the promise [run] returned is fulfilled with ["boom"],
    at no moment is it rejected with it. *)
Lemma run_forwards_rejection_counterexample :
  ~ (forall (initialState : value) (before after : list event)
            (p : pid) (o : outcome),
       let w := exec before (mount initialState) in
       settled (exec after (run (VPromise p) w).2) !! p = Some o ->
       exists n moment,
         moment `prefix_of` (after ++ ticks n) /\
         settled (exec moment (run (VPromise p) w).2) !! Drv (next_drv w)
           = Some o).
Proof.
  intros H.
  destruct (H VUndefined [Attach] [Settle (Ext 0) (Rejected (VStr "boom"))]
              (Ext 0) (Rejected (VStr "boom")) eq_refl)
    as (n & moment & Hpre & Hs).
  cbn [app] in Hpre.
  destruct moment as [|e moment]; [discriminate Hs|].
  apply prefix_cons_inv_1 in Hpre as He. subst e.
  apply prefix_cons_inv_2 in Hpre.
  destruct (prefix_ticks _ _ Hpre) as [k ->]. clear Hpre.
  destruct k as [|[|k]]; [discriminate Hs | discriminate Hs |].
  revert Hs. induction k as [|k IH]; [discriminate|].
  intros Hs. apply IH. exact Hs.
Qed.

(** C4, amended: the promise [run] returns is resolved with the value the
    continuation returns, which is the value of the outcome in both
    cases: given a promise fulfilled with [X] it is resolved with [X], and
    given a promise rejected with [E] it is resolved with [E] too, not
    rejected with it.  Resolved with a value [V] means: fulfilled with
    [V] when [V] is no thenable (so a rejection with such an [E] arrives
    as a fulfilment with [E]); bound to follow [V], and pending until
    then, when [V] is a thenable; and rejected with a TypeError when [V]
    is the returned promise itself. *)
Theorem run_returns_resolved_promise
    (initialState : value) (before after : list event) (p : pid) (o : outcome) :
  let w := exec before (mount initialState) in
  settled (exec after (run (VPromise p) w).2) !! p = Some o ->
  (run (VPromise p) w).1 = Returned (VPromise (Drv (next_drv w))) /\
  exists n moment,
    moment `prefix_of` (after ++ ticks n) /\
    if strict_eq (payload o) (VPromise (Drv (next_drv w))) then
      settled (exec moment (run (VPromise p) w).2) !! Drv (next_drv w) =
        Some (Rejected (VTypeError (Drv (next_drv w))))
    else if awaitable (payload o) then
      locked (exec moment (run (VPromise p) w).2) !! Drv (next_drv w) =
        Some (payload o) /\
      settled (exec moment (run (VPromise p) w).2) !! Drv (next_drv w) = None
    else
      settled (exec moment (run (VPromise p) w).2) !! Drv (next_drv w) =
        Some (Fulfilled (payload o)).
Proof.
  intros w Hs. split; [reflexivity|].
  assert (Hw : well_formed (run (VPromise p) w).2).
  { apply (well_formed_step (Run (VPromise p))).
    apply well_formed_exec, well_formed_mount. }
  destruct (reaction_fires after _ p (next_drv w) o Hw (pending_after_run p w) Hs)
    as (n & pre & rest & Hpre & Hj).
  exists n, (pre ++ [Tick]). split; [done|].
  rewrite exec_app. cbn [exec foldl step].
  fold (exec pre (run (VPromise p) w).2). rewrite Hj.
  apply resolved_with_run_job. cbn [settled].
  apply (head_job_unsettled o _ rest); [|done].
  by apply well_formed_exec.
Qed.

Lemma run_returns_resolved_promise_witness :
  settled (exec [Settle (Ext 0) (Rejected (VStr "boom"))]
             (run (VPromise (Ext 0)) (exec [Attach] (mount VUndefined))).2)
    !! Ext 0 = Some (Rejected (VStr "boom")) /\
  exists n moment,
    moment `prefix_of` ([Settle (Ext 0) (Rejected (VStr "boom"))] ++ ticks n) /\
    settled (exec moment
               (run (VPromise (Ext 0)) (exec [Attach] (mount VUndefined))).2)
      !! Drv 0 = Some (Fulfilled (VStr "boom")).
Proof.
  split; [reflexivity|].
  exact (proj2 (run_returns_resolved_promise VUndefined [Attach]
                  [Settle (Ext 0) (Rejected (VStr "boom"))]
                  (Ext 0) (Rejected (VStr "boom")) eq_refl)).
Defined.

(** *** The guard of [run] *)

(** C3 as stated fails: an object whose [then] is the number 1 is no
    awaitable, and [run] on an attached tracker throws only after
    [status] went from [idle] to [pending]. *)
Lemma run_non_awaitable_counterexample :
  ~ (forall (promise : value) (w : world),
       awaitable promise = false ->
       exists e, (run promise w).1 = Threw e /\
                 observable (hook (run promise w).2) = observable (hook w)).
Proof.
  intros H.
  destruct (H (VObject 0 [("then", VNum (Finite 1 0))])
              attached_default eq_refl) as (e & _ & Hobs).
  discriminate Hobs.
Qed.

(** C3, amended: [run] throws synchronously on every argument that is no
    awaitable.  On an argument that is falsy or whose [then] is falsy the
    error is the guard's and nothing was changed before it.  On a truthy
    argument with a truthy [then] that cannot be called the error is the
    TypeError of the call, after [pending] was dispatched. *)
Theorem run_throws_on_non_awaitable (promise : value) (w : world) :
  awaitable promise = false ->
  (exists e, (run promise w).1 = Threw e) /\
  (truthy promise = false \/
   (exists t, get promise "then" = Some t /\ truthy t = false) ->
   run promise w = (Threw (Error guard_message), w)) /\
  (forall t,
     truthy promise = true -> get promise "then" = Some t -> truthy t = true ->
     run promise w =
       (Threw TypeError,
        on_hook (safeSetState {[ "status" := VStr "pending" ]}) w)).
Proof.
  intros Ha.
  assert (H3 : forall t,
     truthy promise = true -> get promise "then" = Some t -> truthy t = true ->
     run promise w =
       (Threw TypeError,
        on_hook (safeSetState {[ "status" := VStr "pending" ]}) w)).
  { intros t Hp Hg Ht. unfold awaitable in Ha. rewrite Hg in Ha.
    unfold run. rewrite Hp, Hg, Ht. cbn [negb].
    destruct t; try discriminate Ha; reflexivity. }
  assert (H2 : truthy promise = false \/
     (exists t, get promise "then" = Some t /\ truthy t = false) ->
     run promise w = (Threw (Error guard_message), w)).
  { intros [Hp | (t & Hg & Ht)]; unfold run.
    - by rewrite Hp.
    - destruct (truthy promise); [|done]. cbn [negb]. by rewrite Hg, Ht. }
  split; [|by split].
  destruct (truthy promise) eqn:Hp.
  - destruct (get promise "then") as [t|] eqn:Hg.
    + destruct (truthy t) eqn:Ht.
      * rewrite (H3 t); eauto.
      * rewrite H2; eauto.
    + by destruct promise.
  - rewrite H2; eauto.
Qed.

Lemma run_throws_on_non_awaitable_witness :
  awaitable (VStr "not a promise") = false /\
  run (VStr "not a promise") attached_default =
    (Threw (Error guard_message), attached_default).
Proof.
  split; [reflexivity|].
  apply (proj1 (proj2 (run_throws_on_non_awaitable (VStr "not a promise")
                         attached_default eq_refl))).
  right. exists VUndefined. split; reflexivity.
Defined.

(** C10: the guard of [run] throws exactly on the arguments that are
    falsy or whose [then] is falsy.  On every argument with a truthy
    [then], callable or not, the guard does not throw and [pending] is
    dispatched: on an attached tracker [status] is [pending] when [run]
    completes, however it completes. *)
Theorem run_guard_is_truthiness (promise : value) (w : world) :
  ((run promise w).1 = Threw (Error guard_message) <->
   truthy promise = false \/
   (exists t, get promise "then" = Some t /\ truthy t = false)) /\
  (forall t,
     truthy promise = true -> get promise "then" = Some t -> truthy t = true ->
     (run promise w).1 <> Threw (Error guard_message) /\
     hook (run promise w).2 =
       safeSetState {[ "status" := VStr "pending" ]} (hook w) /\
     (mounted (hook w) = true ->
      field (state (hook (run promise w).2)) "status" = VStr "pending")).
Proof.
  assert (Hpass : forall t,
     truthy promise = true -> get promise "then" = Some t -> truthy t = true ->
     (run promise w).1 <> Threw (Error guard_message) /\
     hook (run promise w).2 =
       safeSetState {[ "status" := VStr "pending" ]} (hook w)).
  { intros t Hp Hg Ht. unfold run. rewrite Hp, Hg, Ht. cbn [negb].
    destruct t; try (split; [discriminate | reflexivity]).
    destruct promise; try (split; [discriminate | reflexivity]).
    rewrite (surjective_pairing (promise_then _ _)). cbn [fst snd].
    split; [discriminate|]. by rewrite hook_promise_then. }
  split.
  - split.
    + intros Hr. destruct (truthy promise) eqn:Hp; [|by left].
      right. destruct (get promise "then") as [t|] eqn:Hg;
        [|by destruct promise].
      exists t. split; [done|].
      destruct (truthy t) eqn:Ht; [|done].
      by destruct (Hpass t eq_refl eq_refl Ht) as [Hne _].
    + intros [Hp | (t & Hg & Ht)]; unfold run.
      * by rewrite Hp.
      * destruct (truthy promise); [|done]. cbn [negb]. by rewrite Hg, Ht.
  - intros t Hp Hg Ht. destruct (Hpass t Hp Hg Ht) as [Hne Hh].
    split; [done|]. split; [done|].
    intros Hm. rewrite Hh, safeSetState_attached by done.
    cbn [setState state]. by apply field_reducer_set.
Qed.

End AsyncProps.

(** ** Properties of the grid helpers *)

Module GridProps.
Import JS Grid.

#[local] Arguments strict_eq : simpl never.
#[local] Arguments fresh_cell : simpl never.

(** *** Rounding *)

Section Rounding.
#[local] Open Scope Z_scope.

Lemma to_Q_neg_exp m k :
  0 <= k -> (to_Q m (- k) == inject_Z m / inject_Z (2 ^ k))%Q.
Proof.
  intros Hk. unfold to_Q, Qdiv.
  rewrite Qpower_opp. rewrite (Zpower_Qpower 2 k Hk). reflexivity.
Qed.

Lemma to_Q_lt_int m k c :
  0 <= k -> ((to_Q m (- k) < inject_Z c)%Q <-> m < c * 2 ^ k).
Proof.
  intros Hk. rewrite to_Q_neg_exp by done.
  assert (Hp : 0 < 2 ^ k) by (apply Z.pow_pos_nonneg; lia).
  assert (HpQ : (inject_Z 0 < inject_Z (2 ^ k))%Q) by (rewrite <- Zlt_Qlt; done).
  change (inject_Z 0) with 0%Q in HpQ.
  rewrite Zlt_Qlt, inject_Z_mult. split; intros H.
  - apply (Qmult_lt_r _ _ (/ inject_Z (2 ^ k))); [by apply Qinv_lt_0_compat|].
    rewrite <- Qmult_assoc, Qmult_inv_r, Qmult_1_r; [exact H|].
    intros E. rewrite E in HpQ. by apply Qlt_irrefl in HpQ.
  - apply (Qmult_lt_r _ _ (/ inject_Z (2 ^ k))) in H; [|by apply Qinv_lt_0_compat].
    rewrite <- Qmult_assoc, Qmult_inv_r, Qmult_1_r in H; [exact H|].
    intros E. rewrite E in HpQ. by apply Qlt_irrefl in HpQ.
Qed.

Lemma to_Q_nonneg m e : 0 <= m -> (0 <= to_Q m e)%Q.
Proof.
  intros Hm. unfold to_Q. apply Qmult_le_0_compat.
  - change 0%Q with (inject_Z 0). by rewrite <- Zle_Qle.
  - apply Qpower_0_le. discriminate.
Qed.

(** Rounding is off by at most half a unit in the last place. *)
Lemma round_shift_bounds a s :
  0 <= a -> 0 < s ->
  2 * a - 2 ^ s <= 2 * (round_shift a s * 2 ^ s) <= 2 * a + 2 ^ s.
Proof.
  intros Ha Hs. unfold round_shift.
  assert (Hp : 0 < 2 ^ s) by (apply Z.pow_pos_nonneg; lia).
  assert (Hh : 2 ^ s = 2 * 2 ^ (s - 1)).
  { rewrite <- Z.pow_succ_r by lia. f_equal. lia. }
  pose proof (Z.div_mod a (2 ^ s) ltac:(lia)) as Hdm.
  pose proof (Z.mod_pos_bound a (2 ^ s) Hp) as Hr.
  set (q := a / 2 ^ s) in *. set (r := a mod 2 ^ s) in *.
  set (h := 2 ^ (s - 1)) in *.
  destruct (r <? h) eqn:E1; [apply Z.ltb_lt in E1; nia|].
  apply Z.ltb_ge in E1.
  destruct (h <? r) eqn:E2; [apply Z.ltb_lt in E2; nia|].
  apply Z.ltb_ge in E2.
  destruct (Z.even q); nia.
Qed.

Lemma to_Q_pos_mantissa m e : (0 <= to_Q m e)%Q -> 0 <= m.
Proof.
  intros H. destruct (Z_lt_le_dec m 0) as [Hm|Hm]; [|done]. exfalso.
  assert (Hp : (0 < 2 ^ e)%Q) by (by apply Qpower_0_lt).
  assert (Hn : (inject_Z m < inject_Z 0)%Q) by (by rewrite <- Zlt_Qlt).
  change (inject_Z 0) with 0%Q in Hn.
  apply (Qmult_lt_r _ _ _ Hp) in Hn. unfold to_Q in H.
  rewrite Qmult_0_l in Hn. by apply Qlt_not_le in Hn.
Qed.

Lemma to_Q_zero e : (to_Q 0 e == 0)%Q.
Proof. unfold to_Q. apply Qmult_0_l. Qed.

(** A mantissa of at least one with a value below one has a negative
    exponent. *)
Lemma unit_exponent m e : 1 <= m -> (to_Q m e < 1)%Q -> e < 0.
Proof.
  intros Hm H. destruct (Z_lt_le_dec e 0) as [He|He]; [done|]. exfalso.
  unfold to_Q in H. rewrite <- (Zpower_Qpower 2 e He) in H.
  rewrite <- inject_Z_mult in H. change 1%Q with (inject_Z 1) in H.
  rewrite <- Zlt_Qlt in H.
  assert (0 < 2 ^ e) by (apply Z.pow_pos_nonneg; lia). nia.
Qed.

Lemma finite_compare_small a e :
  0 <= a -> e <= 1024 -> a < 2 ^ (1024 - e) -> finite_compare a e 1 1024 = Lt.
Proof.
  intros Ha He Hlt. unfold finite_compare.
  rewrite Z.min_l by lia. rewrite Z.sub_diag, Z.pow_0_r.
  apply Z.compare_lt_iff. lia.
Qed.

(** [Math.random() * 100] stays below 100 after rounding. *)
Lemma mul_unit_hundred m e :
  binary64 m e -> (0 <= to_Q m e < 1)%Q ->
  exists m' e', mul (Finite m e) hundred = Finite m' e' /\
                (0 <= to_Q m' e' < 100)%Q.
Proof.
  intros [Hm53 [Hemin Hemax]] [H0 H1].
  pose proof (to_Q_pos_mantissa m e H0) as Hm.
  unfold hundred. cbn [mul]. unfold round64. rewrite Z.add_0_r.
  destruct (Z.eq_dec m 0) as [-> | Hne].
  - (* the draw is 0 *)
    change (Z.abs (0 * 100)) with 0. change (Z.log2 0) with 0.
    destruct (0 <? Z.max (0 - 52) (-1074 - e)) eqn:Hs;
      [apply Z.ltb_lt in Hs; lia|].
    rewrite finite_compare_small; [| lia | lia | apply Z.pow_pos_nonneg; lia].
    exists 0, e. split; [reflexivity|]. rewrite to_Q_zero. split; lra.
  - assert (Hm1 : 1 <= m) by lia.
    pose proof (unit_exponent m e Hm1 H1) as He.
    set (k := - e). assert (Hk : 0 < k) by (subst k; lia).
    assert (Hek : e = - k) by (subst k; lia).
    assert (Hmk : m < 2 ^ k).
    { rewrite Hek in H1. change 1%Q with (inject_Z 1) in H1.
      apply to_Q_lt_int in H1; lia. }
    assert (Hpk : 0 < 2 ^ k) by (apply Z.pow_pos_nonneg; lia).
    rewrite Z.abs_eq by lia.
    set (M := m * 100) in *. assert (HM : 0 < M) by (subst M; lia).
    assert (Hsgn : Z.sgn M = 1) by (apply Z.sgn_pos; lia).
    destruct (0 <? Z.max (Z.log2 M - 52) (-1074 - e)) eqn:Hs.
    + (* the product has more than 53 bits *)
      apply Z.ltb_lt in Hs.
      rewrite Z.max_l in * by lia.
      set (s := Z.log2 M - 52) in *.
      destruct (Z.log2_spec M HM) as [Hlo Hhi].
      assert (Hs7 : s <= 7).
      { assert (Z.log2 M < 60); [|subst s; lia].
        apply Z.log2_lt_pow2; [done|]. subst M.
        change (2 ^ 60) with (100 * 2 ^ 53 + 252201579132747776). lia. }
      assert (Hps : 0 < 2 ^ s <= 128).
      { split; [apply Z.pow_pos_nonneg; lia|].
        change 128 with (2 ^ 7). apply Z.pow_le_mono_r; lia. }
      assert (HM53 : 2 ^ 53 <= M).
      { etransitivity; [|exact Hlo]. apply Z.pow_le_mono_r; subst s; lia. }
      assert (Hks : 46 < k).
      { destruct (Z_lt_le_dec 46 k) as [?|Hle]; [done|]. exfalso.
        assert (2 ^ k <= 2 ^ 46) by (apply Z.pow_le_mono_r; lia).
        subst M. change (2 ^ 53) with (128 * 2 ^ 46) in HM53. lia. }
      assert (Hsplit : 2 ^ k = 2 ^ (k - s) * 2 ^ s).
      { rewrite <- Z.pow_add_r by lia. f_equal. lia. }
      assert (Hpks : 0 < 2 ^ (k - s)) by (apply Z.pow_pos_nonneg; lia).
      pose proof (round_shift_bounds M s ltac:(lia) Hs) as [Hrlo Hrhi].
      set (a := round_shift M s) in *.
      assert (Ha0 : 0 < a).
      { change (2 ^ 53) with 9007199254740992 in HM53. nia. }
      assert (Halt : a < 100 * 2 ^ (k - s)).
      { subst M. nia. }
      rewrite finite_compare_small; [| lia | lia |].
      * exists (Z.sgn M * a), (e + s). split; [reflexivity|].
        rewrite Hsgn, Z.mul_1_l.
        split; [apply to_Q_nonneg; lia|].
        replace (e + s) with (- (k - s)) by lia.
        change 100%Q with (inject_Z 100).
        apply to_Q_lt_int; [lia | done].
      * eapply Z.lt_le_trans; [exact Halt|].
        change 100 with (100 * 2 ^ 0).
        assert (2 ^ (k - s) * 128 = 2 ^ (k - s + 7))
          by (rewrite Z.pow_add_r by lia; reflexivity).
        assert (2 ^ (k - s + 7) <= 2 ^ (1024 - (e + s)))
          by (apply Z.pow_le_mono_r; lia).
        lia.
    + (* the product is exact *)
      apply Z.ltb_ge in Hs.
      rewrite finite_compare_small; [| lia | lia |].
      * exists (Z.sgn M * M), e. split; [reflexivity|].
        rewrite Hsgn, Z.mul_1_l.
        split; [apply to_Q_nonneg; lia|].
        rewrite Hek. change 100%Q with (inject_Z 100).
        apply to_Q_lt_int; [lia|]. subst M. lia.
      * assert (2 ^ k * 128 = 2 ^ (k + 7))
          by (rewrite Z.pow_add_r by lia; reflexivity).
        assert (2 ^ (k + 7) <= 2 ^ (1024 - e))
          by (apply Z.pow_le_mono_r; lia).
        subst M. lia.
Qed.

End Rounding.

(** *** [map] *)

Section MapFrom.
Context {A B : Type} (f : A -> nat -> nat -> B * nat).

Lemma map_from_length l : forall i k, length (map_from f i l k).1 = length l.
Proof.
  induction l as [|x l IH]; intros i k; [done|].
  cbn [map_from]. destruct (f x i k) as [y k1].
  specialize (IH (S i) k1). destruct (map_from f (S i) l k1) as [ys k2].
  cbn [fst length] in *. by rewrite IH.
Qed.

(** The element at position [n] of the result is the callback's value on
    the element at position [n], called with index [i + n] after the
    draws the elements before it made. *)
Lemma map_from_lookup l : forall i k n,
  (map_from f i l k).1 !! n =
  (fun x => (f x (i + n) (map_from f i (take n l) k).2).1) <$> l !! n.
Proof.
  induction l as [|x l IH]; intros i k n; [done|].
  cbn [map_from]. destruct (f x i k) as [y k1] eqn:Hf.
  specialize (IH (S i) k1).
  destruct (map_from f (S i) l k1) as [ys k2] eqn:Hm.
  destruct n as [|n].
  - cbn [take map_from fst snd lookup list_lookup fmap option_fmap option_map].
    simpl. by rewrite Nat.add_0_r, Hf.
  - cbn [take map_from]. rewrite Hf.
    destruct (map_from f (S i) (take n l) k1) as [zs k3] eqn:Hz.
    cbn [fst snd]. simpl. specialize (IH n). cbn [fst] in IH.
    rewrite IH, Hz. cbn [snd]. by rewrite Nat.add_succ_r.
Qed.

(** A callback that changes nothing makes [map] the identity. *)
Lemma map_from_id (g : A -> B) l : forall i k,
  (forall n x, l !! n = Some x -> forall k', f x (i + n) k' = (g x, k')) ->
  map_from f i l k = (g <$> l, k).
Proof.
  induction l as [|x l IH]; intros i k H; [done|].
  cbn [map_from]. rewrite <- (Nat.add_0_r i) at 1.
  rewrite (H 0 x eq_refl). rewrite IH; [done|].
  intros n y Hn k'. rewrite Nat.add_succ_l, <- Nat.add_succ_r. by apply H.
Qed.

End MapFrom.

(** *** [updateGridCellState] *)

Lemma sample_draws_unit : unit_source sample_draws.
Proof.
  intros i. exists (Z.of_nat (i mod 16)), (-4)%Z.
  pose proof (Nat.mod_upper_bound i 16 ltac:(lia)) as Hi.
  split; [reflexivity|]. split; [unfold binary64; lia|].
  split; [apply to_Q_nonneg; lia|].
  change 1%Q with (inject_Z 1). apply (to_Q_lt_int _ 4); [lia|].
  change (2 ^ 4)%Z with 16%Z. lia.
Qed.

Lemma fresh_cell_in_range draws k :
  unit_source draws -> in_range (fresh_cell draws k).1.
Proof.
  intros H. destruct (H k) as (m & e & Hd & Hb & Hu).
  unfold fresh_cell, random. cbn [fst]. rewrite Hd.
  by apply mul_unit_hundred.
Qed.

(** C8: [updateGridCellState] returns a grid of the same shape in which
    every cell the coordinates do not name is the input cell, the cell
    they name (when the grid has it) is a number in [[0, 100)], and which
    is the input grid, no draw made, when the coordinates name no cell of
    the grid.  The function is total: there is no input it fails on. *)
Theorem updateGridCellState_replaces_one_cell
    (draws : nat -> number) (g : grid) (c : coords) (k : nat) :
  unit_source draws ->
  let g' := (updateGridCellState draws g c k).1 in
  length g' = length g /\
  (forall i, length <$> g' !! i = length <$> g !! i) /\
  (forall i j, points_at c i j = false -> cell_at g' i j = cell_at g i j) /\
  (forall i j, points_at c i j = true -> is_Some (cell_at g i j) ->
     exists n, cell_at g' i j = Some n /\ in_range n) /\
  ((forall i j, is_Some (cell_at g i j) -> points_at c i j = false) ->
   updateGridCellState draws g c k = (g, k)).
Proof.
  intros Hd g'. subst g'. unfold updateGridCellState.
  split; [apply map_from_length|].
  split; [|split; [|split]].
  - intros i. rewrite map_from_lookup.
    destruct (g !! i) as [cells|]; [|done]. simpl. f_equal.
    destruct (strict_eq (index i) (row c)); [apply map_from_length | done].
  - intros i j Hp. unfold cell_at, points_at in *. rewrite map_from_lookup.
    destruct (g !! i) as [cells|]; [|done]. simpl.
    destruct (strict_eq (index i) (row c)); [|done].
    rewrite map_from_lookup. destruct (cells !! j) as [cell|]; [|done].
    simpl in *. by rewrite Hp.
  - intros i j Hp [cell Hc]. unfold cell_at, points_at in *.
    apply andb_prop in Hp as [Hr Hcol]. rewrite map_from_lookup.
    destruct (g !! i) as [cells|]; [|done]. simpl in *. rewrite Hr.
    rewrite map_from_lookup, Hc. simpl. rewrite Hcol.
    eexists. split; [reflexivity|]. by apply fresh_cell_in_range.
  - intros Hout. rewrite <- (list_fmap_id g) at 2.
    apply map_from_id. intros i cells Hi k'. simpl.
    destruct (strict_eq (index i) (row c)) eqn:Hr; [|done].
    rewrite <- (list_fmap_id cells) at 2.
    apply map_from_id. intros j cell Hj k''. simpl.
    assert (Hp : points_at c i j = false).
    { apply Hout. unfold cell_at. rewrite Hi. simpl. by rewrite Hj. }
    unfold points_at in Hp. rewrite Hr in Hp. simpl in Hp. by rewrite Hp.
Qed.

Lemma updateGridCellState_replaces_one_cell_witness :
  unit_source sample_draws /\
  exists n,
    cell_at (updateGridCellState sample_draws sample_grid
               (Coords (index 0) (index 1)) 0).1 0 1 = Some n /\
    in_range n.
Proof.
  split; [exact sample_draws_unit|].
  apply (updateGridCellState_replaces_one_cell sample_draws sample_grid
           (Coords (index 0) (index 1)) 0 sample_draws_unit).
  - reflexivity.
  - exists (Finite 2 0). reflexivity.
Defined.

(** *** [updateGridState] *)

Lemma map_from_Forall2 {A B : Type} (f : A -> nat -> nat -> B * nat)
    (R : A -> B -> Prop) :
  (forall x i k, R x (f x i k).1) ->
  forall l i k, Forall2 R l (map_from f i l k).1.
Proof.
  intros Hf l. induction l as [|x l IH]; intros i k; [by constructor|].
  cbn [map_from]. pose proof (Hf x i k) as Hx.
  destruct (f x i k) as [y k1].
  specialize (IH (S i) k1). destruct (map_from f (S i) l k1) as [ys k2].
  by constructor.
Qed.

Lemma regenerate_keeps_or_in_range draws cell k :
  unit_source draws ->
  (regenerate draws cell k).1 = cell \/ in_range (regenerate draws cell k).1.
Proof.
  intros Hd. unfold regenerate, random.
  destruct (number_gt (draws k) seven_tenths); [right | by left].
  by apply fresh_cell_in_range.
Qed.

Section Determinism.
Variables draws draws' : nat -> number.

(** The two sources make the same draws from call [a] up to call [b]. *)
Let agree (a b : nat) : Prop := forall i, a <= i < b -> draws' i = draws i.

(** Two callbacks that differ only in the source they draw from, and
    draw at most [cost x] times on element [x]. *)
Lemma map_from_agree {A B : Type} (f f' : A -> nat -> nat -> B * nat)
    (cost : A -> nat) :
  (forall x i k, agree k (k + cost x) ->
     f' x i k = f x i k /\ k <= (f x i k).2 <= k + cost x) ->
  forall l i k, agree k (k + sum_list (cost <$> l)) ->
    map_from f' i l k = map_from f i l k /\
    k <= (map_from f i l k).2 <= k + sum_list (cost <$> l).
Proof.
  intros Hf l. induction l as [|x l IH]; intros i k Hk.
  - cbn. split; [done | lia].
  - cbn [map_from]. cbn [fmap list_fmap sum_list] in *. unfold id in *.
    destruct (Hf x i k) as [-> Hb]; [intros n Hn; apply Hk; lia|].
    destruct (f x i k) as [y k1]. cbn [snd] in Hb.
    destruct (IH (S i) k1) as [-> Hb']; [intros n Hn; apply Hk; lia|].
    destruct (map_from f (S i) l k1) as [ys k2]. cbn [snd] in *.
    split; [done | lia].
Qed.

Lemma regenerate_agree cell k :
  agree k (k + 2) ->
  regenerate draws' cell k = regenerate draws cell k /\
  k <= (regenerate draws cell k).2 <= k + 2.
Proof.
  intros Hk. unfold regenerate, fresh_cell, random.
  rewrite (Hk k) by lia. rewrite (Hk (S k)) by lia.
  destruct (number_gt (draws k) seven_tenths); cbn [snd]; split; (done || lia).
Qed.

Lemma updateGridState_agree (g : grid) (k : nat) :
  agree k (k + 2 * cells g) ->
  updateGridState draws' g k = updateGridState draws g k.
Proof.
  intros Hk. unfold updateGridState.
  refine (proj1 (map_from_agree _ _ (fun row => 2 * length row) _ g 0 k _)).
  - intros row _ k0 Hk0.
    replace (2 * length row) with (sum_list ((fun _ => 2) <$> row)) in *
      by (clear; induction row as [|x row IH]; cbn in *; unfold id in *; lia).
    apply (map_from_agree _ _ (fun _ => 2)); [|done].
    intros cell _ k1. apply regenerate_agree.
  - replace (sum_list ((fun row => 2 * length row) <$> g)) with (2 * cells g);
      [done|].
    unfold cells. clear. induction g as [|row g IH]; cbn in *; unfold id in *; lia.
Qed.

End Determinism.

(** C9: every cell of the grid [updateGridState] returns is the input
    cell or a number in [[0, 100)], the shape being the input's; and the
    result is a function of the grid and of the draws made, at most two a
    cell: two random sources that agree on them give the same grid. *)
Theorem updateGridState_keeps_or_regenerates
    (draws : nat -> number) (g : grid) (k : nat) :
  unit_source draws ->
  Forall2 (Forall2 (fun cell cell' => cell' = cell \/ in_range cell'))
          g (updateGridState draws g k).1 /\
  (forall draws' : nat -> number,
     (forall i, k <= i < k + 2 * cells g -> draws' i = draws i) ->
     updateGridState draws' g k = updateGridState draws g k).
Proof.
  intros Hd. split.
  - unfold updateGridState. apply map_from_Forall2. intros row _ k0.
    apply map_from_Forall2. intros cell _ k1.
    by apply regenerate_keeps_or_in_range.
  - intros draws' H. by apply updateGridState_agree.
Qed.

Lemma updateGridState_keeps_or_regenerates_witness :
  unit_source sample_draws /\
  Forall2 (Forall2 (fun cell cell' => cell' = cell \/ in_range cell'))
          sample_grid (updateGridState sample_draws sample_grid 8).1.
Proof.
  split; [exact sample_draws_unit|].
  exact (proj1 (updateGridState_keeps_or_regenerates sample_draws sample_grid 8
                  sample_draws_unit)).
Defined.

End GridProps.

(** ** Properties of the debounced state hook *)

Module DebounceProps.
Import JS Debounce.

Section Debounce.
Context {T : Type}.
Variable cb : list value -> T -> T.
Variable time : nat.

#[local] Abbreviation step := (Debounce.step cb time).
#[local] Abbreviation exec := (Debounce.exec cb time).

Lemma dexec_app es1 es2 (w : world T) :
  exec (es1 ++ es2) w = exec es2 (exec es1 w).
Proof. unfold Debounce.exec. apply foldl_app. Qed.

Lemma elapsed_app es1 es2 : elapsed (es1 ++ es2) = elapsed es1 + elapsed es2.
Proof.
  unfold elapsed. rewrite fmap_app.
  induction (_ <$> es1) as [|x l IH]; cbn in *; unfold id in *; lia.
Qed.

Lemma elapsed_cons e es :
  elapsed (e :: es) = elapsed [e] + elapsed es.
Proof. apply (elapsed_app [e] es). Qed.

(** *** The delay of the host *)

Lemma host_delay_small delay :
  (N.of_nat delay < 2 ^ 31)%N -> host_delay delay = delay.
Proof.
  intros Hlt. unfold host_delay.
  change (2 ^ 31)%N with 2147483648%N in *.
  change (2 ^ 32)%N with 4294967296%N.
  rewrite N.mod_small by lia.
  destruct (N.ltb_spec (N.of_nat delay) 2147483648); lia.
Qed.

Lemma host_delay_le delay : host_delay delay <= delay.
Proof.
  unfold host_delay. change (2 ^ 32)%N with 4294967296%N.
  pose proof (N.Div0.mod_le (N.of_nat delay) 4294967296) as Hle.
  destruct (_ <? _)%N; lia.
Qed.

(** *** One timeout at a time *)

Lemma single_timer_debounce t0 (s : T) : single_timer (debounce t0 s).
Proof.
  split; [by left|]. split; [intros t Ht; by apply elem_of_nil in Ht | done].
Qed.

(** A call leaves exactly the timeout it sets. *)
Lemma debounced_timers args (w : world T) :
  single_timer w ->
  timers (debounced time args w) =
    [Timer (next_id w) (now w + host_delay time) args] /\
  timeout (debounced time args w) = Some (next_id w) /\
  next_id (debounced time args w) = S (next_id w) /\
  now (debounced time args w) = now w /\
  target (debounced time args w) = target w.
Proof.
  intros ([Hnil | (t & Ht & Hid)] & _ & _); unfold debounced, clearTimeout.
  - destruct (timeout w); cbn; rewrite Hnil; done.
  - rewrite Hid. cbn. rewrite Ht.
    rewrite filter_cons_False by (intros H; by apply H). done.
Qed.

Lemma single_timer_step e (w : world T) :
  single_timer w -> single_timer (step e w).
Proof.
  intros Hw. destruct e as [args|ms|]; cbn [Debounce.step].
  - destruct (debounced_timers args w Hw) as (Ht & Hto & Hn & _ & _).
    split; [|split].
    + right. eexists. split; [exact Ht|]. by rewrite Hto.
    + rewrite Ht, Hn. intros t Hin. apply list_elem_of_singleton in Hin as ->.
      cbn. lia.
    + rewrite Hto, Hn. intros i [= <-]. lia.
  - exact Hw.
  - destruct Hw as ([Hnil | (t & Ht & Hid)] & Hlt & Hto).
    + rewrite Hnil. cbn. split; [by left | by split].
    + rewrite Ht. cbn [first_due]. destruct (due t <=? now w)%nat.
      * split; [by left|]. split; [|done].
        intros t' Hin. by apply elem_of_nil in Hin.
      * split; [right; by exists t | by split].
Qed.

Lemma single_timer_exec es : forall w : world T,
  single_timer w -> single_timer (exec es w).
Proof.
  induction es as [|e es IH]; intros w Hw; [done|].
  apply IH. by apply single_timer_step.
Qed.

(** *** Between calls *)

(** With nothing pending, only a call changes anything but the clock. *)
Lemma idle_step e (w : world T) :
  is_call e = false -> timers w = [] ->
  timers (step e w) = [] /\ target (step e w) = target w.
Proof.
  intros He Hw. destruct e; [done | done |].
  cbn [Debounce.step]. by rewrite Hw.
Qed.

Lemma idle_exec es : forall w : world T,
  Forall (fun e => is_call e = false) es -> timers w = [] ->
  timers (exec es w) = [] /\ target (exec es w) = target w.
Proof.
  induction es as [|e es IH]; intros w Hes Hw; [done|].
  apply Forall_cons in Hes as [He Hes].
  destruct (idle_step e w He Hw) as [Ht Hs].
  destruct (IH (step e w) Hes Ht) as [Ht' Hs']. split; [done|].
  cbn. unfold Debounce.exec in Hs'. by rewrite Hs', Hs.
Qed.

(** With one timeout pending, events other than calls leave it pending
    and the state as it is, or run it: then it was due, and the state is
    what the callback makes of it. *)
Lemma pending_exec es : forall (w : world T) i d args,
  Forall (fun e => is_call e = false) es ->
  timers w = [Timer i d args] ->
  now (exec es w) = now w + elapsed es /\
  ((timers (exec es w) = [Timer i d args] /\ target (exec es w) = target w) \/
   (timers (exec es w) = [] /\ target (exec es w) = cb args (target w) /\
    d <= now w + elapsed es)).
Proof.
  induction es as [|e es IH]; intros w i d args Hes Hw.
  - cbn. split; [unfold elapsed; cbn; lia|]. by left.
  - apply Forall_cons in Hes as [He Hes].
    rewrite elapsed_cons.
    change (exec (e :: es) w) with (exec es (step e w)).
    destruct e as [a|ms|]; [done | |].
    + (* time passes *)
      destruct (IH (step (Advance ms) w) i d args Hes Hw) as [Hn Hc].
      change (now (step (Advance ms) w)) with (now w + ms) in Hn, Hc.
      change (target (step (Advance ms) w)) with (target w) in Hc.
      assert (He1 : elapsed [Advance ms] = ms)
        by (unfold elapsed; cbn; unfold id; lia).
      rewrite He1. split; [lia|].
      destruct Hc as [Hc | (Ht & Hs & Hd)]; [by left | right].
      split; [done|]. split; [done | lia].
    + (* the host tries to run a timeout *)
      assert (He1 : elapsed [Fire] = 0) by reflexivity.
      rewrite He1, Nat.add_0_l.
      cbn [Debounce.step]. rewrite Hw. cbn [first_due due].
      destruct (d <=? now w)%nat eqn:Hd.
      * apply Nat.leb_le in Hd.
        set (w1 := World _ _ _ _ _).
        destruct (idle_exec es w1 Hes eq_refl) as [Ht Hs].
        assert (Hn : now (exec es w1) = now w1 + elapsed es).
        { clear -Hes. generalize w1. clear w1.
          induction es as [|e es IH]; intros w1.
          - unfold elapsed. cbn. lia.
          - apply Forall_cons in Hes as [He Hes].
            change (exec (e :: es) w1) with (exec es (step e w1)).
            rewrite IH by done. rewrite (elapsed_cons e es).
            destruct e as [a|ms|]; [done | |].
            + cbn [Debounce.step now]. unfold elapsed at 2. cbn.
              unfold id. lia.
            + cbn [Debounce.step]. unfold elapsed at 2. cbn.
              destruct (first_due _ _) as [[t r]|]; cbn; lia. }
        split; [exact Hn|]. right. split; [done|]. split; [done|].
        cbn [now] in *. subst w1. cbn [now]. lia.
      * destruct (IH w i d args Hes Hw) as [Hn Hc]. split; [exact Hn|].
        exact Hc.
Qed.

(** *** What a call brings about *)

Lemma after_call args after (w : world T) :
  single_timer w ->
  Forall (fun e => is_call e = false) after ->
  (target (exec (Call args :: after) w) = target w /\
   timers (exec (Call args :: after) w) <> []) \/
  (target (exec (Call args :: after) w) = cb args (target w) /\
   timers (exec (Call args :: after) w) = [] /\
   host_delay time <= elapsed after).
Proof.
  intros Hw Hafter.
  destruct (debounced_timers args w Hw) as (Ht & _ & _ & Hn & Hs).
  change (exec (Call args :: after) w) with (exec after (debounced time args w)).
  destruct (pending_exec after _ _ _ _ Hafter Ht)
    as [_ [[Ht' Hs'] | (Ht' & Hs' & Hd)]].
  - left. rewrite Hs', Hs, Ht'. done.
  - right. rewrite Hs', Hs, Ht'. split; [done|]. split; [done|]. lia.
Qed.

(** A call made less than [time] before the next event of interest has
    had no effect yet. *)
Lemma call_waits args after (w : world T) :
  (N.of_nat time < 2 ^ 31)%N ->
  single_timer w ->
  Forall (fun e => is_call e = false) after ->
  elapsed after < time ->
  target (exec (Call args :: after) w) = target w.
Proof.
  intros Hfit Hw Hafter Hlt.
  destruct (after_call args after w Hw Hafter) as [[Hs _] | (_ & _ & Hd)];
    [done|].
  rewrite (host_delay_small time Hfit) in Hd. lia.
Qed.

(** A call left alone for [time] has run the callback once the host ran
    its timeout. *)
Lemma call_fires args quiet rest (w : world T) :
  single_timer w ->
  Forall (fun e => is_call e = false) quiet ->
  Forall (fun e => is_call e = false) rest ->
  time <= elapsed quiet ->
  target (exec (Call args :: quiet ++ Fire :: rest) w) = cb args (target w).
Proof.
  intros Hw Hquiet Hrest Htime.
  destruct (debounced_timers args w Hw) as (Ht & _ & _ & Hn & Hs).
  change (exec (Call args :: quiet ++ Fire :: rest) w)
    with (exec (quiet ++ Fire :: rest) (debounced time args w)).
  rewrite dexec_app.
  change (exec (Fire :: rest) ?x) with (exec rest (step Fire x)).
  destruct (pending_exec quiet _ _ _ _ Hquiet Ht)
    as [Hnow [[Ht' Hs'] | (Ht' & Hs' & Hd)]].
  - (* still pending after the quiet time: it runs now *)
    set (w1 := exec quiet (debounced time args w)) in *.
    assert (Hf : timers (step Fire w1) = [] /\
                 target (step Fire w1) = cb args (target w)).
    { cbn [Debounce.step]. rewrite Ht'. cbn [first_due due].
      destruct (now w + host_delay time <=? now w1)%nat eqn:Hle.
      - cbn. by rewrite Hs', Hs.
      - apply Nat.leb_gt in Hle. pose proof (host_delay_le time). lia. }
    destruct Hf as [Hf1 Hf2].
    destruct (idle_exec rest _ Hrest Hf1) as [_ Hr]. by rewrite Hr.
  - (* it ran during the quiet time *)
    set (w1 := exec quiet (debounced time args w)) in *.
    destruct (idle_step Fire w1 eq_refl Ht') as [Hf1 Hf2].
    destruct (idle_exec rest _ Hrest Hf1) as [_ Hr].
    by rewrite Hr, Hf2, Hs', Hs.
Qed.

(** Calls that each come less than [time] after the one before leave the
    state as it was. *)
Lemma burst_waits (calls : list (list value * list event)) (w : world T) :
  (N.of_nat time < 2 ^ 31)%N ->
  single_timer w ->
  Forall (fun c => Forall (fun e => is_call e = false) c.2 /\
                   elapsed c.2 < time) calls ->
  target (exec (burst_events calls) w) = target w.
Proof.
  intros Hfit Hw Hcalls.
  induction calls as [|[a g] calls IH] using rev_ind; [done|].
  apply Forall_app in Hcalls as [Hcalls Hlast].
  apply Forall_cons in Hlast as [[Hg Hlt] _]. cbn [snd] in Hg, Hlt.
  unfold burst_events in *. rewrite flat_map_app. cbn [flat_map fst snd].
  rewrite app_nil_r, dexec_app.
  rewrite call_waits;
    [by apply IH | done | by apply single_timer_exec | done | done].
Qed.

(** A burst of calls and then one left alone: the callback runs for the
    last one. *)
Lemma burst_fires (calls : list (list value * list event))
    (quiet rest : list event) (args : list value) (w : world T) :
  (N.of_nat time < 2 ^ 31)%N ->
  single_timer w ->
  Forall (fun c => Forall (fun e => is_call e = false) c.2 /\
                   elapsed c.2 < time) calls ->
  Forall (fun e => is_call e = false) quiet ->
  Forall (fun e => is_call e = false) rest ->
  time <= elapsed quiet ->
  target (exec (burst_events calls ++ Call args :: quiet ++ Fire :: rest) w) =
  cb args (target w).
Proof.
  intros Hfit Hw Hcalls Hquiet Hrest Htime. rewrite dexec_app.
  rewrite call_fires by (done || by apply single_timer_exec).
  f_equal. by apply burst_waits.
Qed.

(** X1: at any time at most one timeout set by the closure is pending,
    and the variable [timeout] holds its id. *)
Theorem debounce_keeps_one_timeout (es : list event) (t0 : nat) (s : T) :
  length (timers (exec es (debounce t0 s))) <= 1 /\
  (forall t, t ∈ timers (exec es (debounce t0 s)) ->
             timeout (exec es (debounce t0 s)) = Some (timer_id t)).
Proof.
  destruct (single_timer_exec es _ (single_timer_debounce t0 s))
    as ([Hnil | (t & Ht & Hid)] & _ & _).
  - rewrite Hnil. split; [cbn; lia|]. intros t Hin. by apply elem_of_nil in Hin.
  - rewrite Ht. split; [cbn; lia|].
    intros t' Hin. by apply list_elem_of_singleton in Hin as ->.
Qed.

(** X2: with a delay that fits a signed 32-bit integer, as the host
    keeps it, a call has no effect before the delay has passed: as long
    as less than [time] milliseconds have gone by since the last call,
    the callback has not run for it, and a call before it that was still
    pending never runs its callback either. *)
Theorem debounce_waits (before after : list event) (args : list value)
    (t0 : nat) (s : T) :
  (N.of_nat time < 2 ^ 31)%N ->
  Forall (fun e => is_call e = false) after ->
  elapsed after < time ->
  target (exec (before ++ Call args :: after) (debounce t0 s)) =
  target (exec before (debounce t0 s)).
Proof.
  intros Hfit Hafter Hlt. rewrite dexec_app.
  apply call_waits; [done| |done|done].
  apply single_timer_exec, single_timer_debounce.
Qed.

(** X3: once the delay has passed since a call and the host runs the
    timeout, the callback has run exactly once for that call, with its
    arguments: the state is [cb args] of what it was when the call was
    made, whatever else happens short of a new call. *)
Theorem debounce_fires_once (before quiet rest : list event)
    (args : list value) (t0 : nat) (s : T) :
  Forall (fun e => is_call e = false) quiet ->
  Forall (fun e => is_call e = false) rest ->
  time <= elapsed quiet ->
  target (exec (before ++ Call args :: quiet ++ Fire :: rest) (debounce t0 s)) =
  cb args (target (exec before (debounce t0 s))).
Proof.
  intros Hquiet Hrest Htime. rewrite dexec_app.
  apply call_fires; [|done|done|done].
  apply single_timer_exec, single_timer_debounce.
Qed.

(** X4: with a delay that fits a signed 32-bit integer, as the host
    keeps it, of a burst of calls, each made less than [time]
    milliseconds after the one before, only the last takes effect: after
    the delay the callback has run once, with the arguments of the last
    call. *)
Theorem debounce_burst_runs_last_call
    (before : list event) (calls : list (list value * list event))
    (quiet rest : list event) (args : list value) (t0 : nat) (s : T) :
  (N.of_nat time < 2 ^ 31)%N ->
  Forall (fun c => Forall (fun e => is_call e = false) c.2 /\
                   elapsed c.2 < time) calls ->
  Forall (fun e => is_call e = false) quiet ->
  Forall (fun e => is_call e = false) rest ->
  time <= elapsed quiet ->
  target (exec (before ++ burst_events calls ++
                Call args :: quiet ++ Fire :: rest) (debounce t0 s)) =
  cb args (target (exec before (debounce t0 s))).
Proof.
  intros Hfit Hcalls Hquiet Hrest Htime. rewrite dexec_app.
  apply burst_fires; [done| |done|done|done|done].
  apply single_timer_exec, single_timer_debounce.
Qed.

(** X5: calls that are each left alone until their timeout has run all
    take effect, in the order they were made. *)
Theorem debounce_spaced_calls_all_run
    (before : list event) (calls : list (list value * list event))
    (t0 : nat) (s : T) :
  Forall (fun c => Forall (fun e => is_call e = false) c.2 /\
                   time <= elapsed c.2) calls ->
  target (exec (before ++ spaced_events calls) (debounce t0 s)) =
  foldl (fun s c => cb c.1 s) (target (exec before (debounce t0 s))) calls.
Proof.
  intros Hcalls.
  induction calls as [|[a g] calls IH] using rev_ind.
  - cbn. by rewrite app_nil_r.
  - apply Forall_app in Hcalls as [Hcalls Hlast].
    apply Forall_cons in Hlast as [[Hg Hge] _]. cbn [snd] in Hg, Hge.
    unfold spaced_events in *.
    rewrite flat_map_app, foldl_app. cbn [flat_map foldl fst snd].
    rewrite app_nil_r, app_assoc, dexec_app.
    rewrite (call_fires a g [] _) by
      (done || apply single_timer_exec, single_timer_debounce).
    by rewrite IH.
Qed.

End Debounce.

(** *** The hook *)

Section UseDebouncedState.
Variable apply : value -> list value -> value.

(** X6: the state of [useDebouncedState] follows the last call of the
    debounced setter once 200 ms have passed without another: after a
    burst of calls less than 200 ms apart, the state is the first
    argument of the last call, or what that argument returns for the
    state so far when it is a function; the arguments of the calls
    before it are dropped and its other arguments are not looked at. *)
Theorem useDebouncedState_follows_last_call
    (initialState : value) (t0 : nat)
    (before : list event) (calls : list (list value * list event))
    (quiet rest : list event) (v : value) (others : list value) :
  Forall (fun c => Forall (fun e => is_call e = false) c.2 /\
                   elapsed c.2 < 200) calls ->
  Forall (fun e => is_call e = false) quiet ->
  Forall (fun e => is_call e = false) rest ->
  200 <= elapsed quiet ->
  target (hook_exec apply
            (before ++ burst_events calls ++
             Call (v :: others) :: quiet ++ Fire :: rest)
            (useDebouncedState apply initialState t0)) =
  if callable v then
    apply v [target (hook_exec apply before
                       (useDebouncedState apply initialState t0))]
  else v.
Proof.
  intros Hcalls Hquiet Hrest Htime. unfold hook_exec, useDebouncedState.
  rewrite dexec_app, burst_fires;
    [reflexivity | reflexivity | | done | done | done | done].
  apply single_timer_exec, single_timer_debounce.
Qed.

End UseDebouncedState.

(** The witnesses use a callback that logs the arguments of each of its
    runs. *)

Lemma debounce_waits_witness :
  (N.of_nat 200 < 2 ^ 31)%N /\
  Forall (fun e => is_call e = false) [Advance 150; Fire] /\
  elapsed [Advance 150; Fire] < 200 /\
  target (Debounce.exec log_call 200
            ([Call [VNull]; Advance 300; Fire] ++
             Call [VBool true] :: [Advance 150; Fire])
            (debounce 0 [])) = [[VNull]].
Proof.
  assert (Hq : Forall (fun e => is_call e = false) [Advance 150; Fire])
    by (repeat constructor).
  assert (Ht : elapsed [Advance 150; Fire] < 200) by (vm_compute; lia).
  assert (Hfit : (N.of_nat 200 < 2 ^ 31)%N) by reflexivity.
  split; [exact Hfit|]. split; [exact Hq|]. split; [exact Ht|].
  rewrite (debounce_waits log_call 200 [Call [VNull]; Advance 300; Fire]
             [Advance 150; Fire] [VBool true] 0 [] Hfit Hq Ht).
  reflexivity.
Defined.

Lemma debounce_fires_once_witness :
  Forall (fun e => is_call e = false) [Advance 200] /\
  Forall (fun e => is_call e = false) [Advance 50; Fire] /\
  200 <= elapsed [Advance 200] /\
  target (Debounce.exec log_call 200
            ([] ++ Call [VNull] :: [Advance 200] ++ Fire :: [Advance 50; Fire])
            (debounce 0 [])) = [[VNull]].
Proof.
  assert (Hq : Forall (fun e => is_call e = false) [Advance 200])
    by (repeat constructor).
  assert (Hr : Forall (fun e => is_call e = false) [Advance 50; Fire])
    by (repeat constructor).
  assert (Ht : 200 <= elapsed [Advance 200]) by (vm_compute; lia).
  split; [exact Hq|]. split; [exact Hr|]. split; [exact Ht|].
  exact (debounce_fires_once log_call 200 [] [Advance 200] [Advance 50; Fire]
           [VNull] 0 [] Hq Hr Ht).
Defined.

Lemma debounce_burst_runs_last_call_witness :
  (N.of_nat 200 < 2 ^ 31)%N /\
  Forall (fun c => Forall (fun e => is_call e = false) c.2 /\
                   elapsed c.2 < 200) sample_burst /\
  Forall (fun e => is_call e = false) [Advance 200] /\
  Forall (fun e => is_call e = false) [] /\
  200 <= elapsed [Advance 200] /\
  target (Debounce.exec log_call 200
            ([] ++ burst_events sample_burst ++
             Call [VBool true] :: [Advance 200] ++ Fire :: [])
            (debounce 0 [])) = [[VBool true]].
Proof.
  assert (Hc : Forall (fun c => Forall (fun e => is_call e = false) c.2 /\
                               elapsed c.2 < 200) sample_burst).
  { repeat constructor; vm_compute; lia. }
  assert (Hq : Forall (fun e => is_call e = false) [Advance 200])
    by (repeat constructor).
  assert (Ht : 200 <= elapsed [Advance 200]) by (vm_compute; lia).
  assert (Hfit : (N.of_nat 200 < 2 ^ 31)%N) by reflexivity.
  split; [exact Hfit|].
  split; [exact Hc|]. split; [exact Hq|]. split; [constructor|].
  split; [exact Ht|].
  exact (debounce_burst_runs_last_call log_call 200 [] sample_burst
           [Advance 200] [] [VBool true] 0 [] Hfit Hc Hq (Forall_nil_2 _) Ht).
Defined.

Lemma debounce_spaced_calls_all_run_witness :
  Forall (fun c => Forall (fun e => is_call e = false) c.2 /\
                   200 <= elapsed c.2) sample_spaced /\
  target (Debounce.exec log_call 200 ([] ++ spaced_events sample_spaced)
            (debounce 0 [])) = [[VNull]; [VBool false]].
Proof.
  assert (Hc : Forall (fun c => Forall (fun e => is_call e = false) c.2 /\
                               200 <= elapsed c.2) sample_spaced).
  { repeat constructor; vm_compute; lia. }
  split; [exact Hc|].
  exact (debounce_spaced_calls_all_run log_call 200 [] sample_spaced 0 [] Hc).
Defined.

Lemma useDebouncedState_follows_last_call_witness :
  Forall (fun c => Forall (fun e => is_call e = false) c.2 /\
                   elapsed c.2 < 200) sample_burst /\
  Forall (fun e => is_call e = false) [Advance 200] /\
  Forall (fun e => is_call e = false) [] /\
  200 <= elapsed [Advance 200] /\
  target (hook_exec no_function
            ([] ++ burst_events sample_burst ++
             Call [VStr "c"; VNull] :: [Advance 200] ++ Fire :: [])
            (useDebouncedState no_function (VStr "") 0)) = VStr "c".
Proof.
  assert (Hc : Forall (fun c => Forall (fun e => is_call e = false) c.2 /\
                               elapsed c.2 < 200) sample_burst).
  { repeat constructor; vm_compute; lia. }
  assert (Hq : Forall (fun e => is_call e = false) [Advance 200])
    by (repeat constructor).
  assert (Ht : 200 <= elapsed [Advance 200]) by (vm_compute; lia).
  split; [exact Hc|]. split; [exact Hq|]. split; [constructor|].
  split; [exact Ht|].
  exact (useDebouncedState_follows_last_call no_function (VStr "") 0 []
           sample_burst [Advance 200] [] (VStr "c") [VNull]
           Hc Hq (Forall_nil_2 _) Ht).
Defined.

End DebounceProps.

(** ** Properties of the forced re-render hook *)

Module RerenderProps.
Import JS Rerender.

#[local] Open Scope Z_scope.

Lemma add_one_small n :
  0 <= n -> n + 1 < 2 ^ 53 -> add (Finite n 0) (Finite 1 0) = Finite (n + 1) 0.
Proof.
  intros Hn Hlt. cbn [add]. rewrite Z.min_id, Z.sub_diag, Z.pow_0_r, !Z.mul_1_r.
  unfold round64. rewrite Z.abs_eq by lia.
  assert (Hlog : Z.log2 (n + 1) < 53) by (apply Z.log2_lt_pow2; lia).
  destruct (0 <? Z.max (Z.log2 (n + 1) - 52) (-1074 - 0)) eqn:Hs;
    [apply Z.ltb_lt in Hs; lia|].
  assert (Hc : finite_compare (n + 1) 0 1 1024 = Lt).
  { unfold finite_compare. rewrite Z.min_l by lia.
    rewrite Z.sub_diag, Z.pow_0_r. apply Z.compare_lt_iff.
    assert (2 ^ 53 <= 2 ^ (1024 - 0)) by (apply Z.pow_le_mono_r; lia). lia. }
  rewrite Hc. f_equal. rewrite Z.sgn_pos by lia. lia.
Qed.

Lemma after_calls_small (actions : list value) :
  Z.of_nat (length actions) < 2 ^ 53 ->
  after_calls actions = Finite (Z.of_nat (length actions)) 0.
Proof.
  induction actions as [|a actions IH] using rev_ind; intros Hlen; [done|].
  rewrite length_app in *. cbn [length] in *.
  unfold after_calls in *. rewrite foldl_app. cbn [foldl].
  rewrite IH by lia. unfold forceRerender, reducer.
  rewrite add_one_small by lia. f_equal. lia.
Qed.

Lemma add_one_saturated : add saturated (Finite 1 0) = saturated.
Proof. reflexivity. Qed.

Lemma after_calls_snoc actions a :
  after_calls (actions ++ [a]) = add (after_calls actions) (Finite 1 0).
Proof. unfold after_calls. by rewrite foldl_app. Qed.

Lemma after_calls_limit (actions : list value) :
  Z.of_nat (length actions) = 2 ^ 53 -> after_calls actions = saturated.
Proof.
  destruct actions as [|a actions] using rev_ind; [done|]. clear IHactions.
  rewrite length_app. cbn [length]. intros Hlen.
  rewrite after_calls_snoc, after_calls_small by lia.
  replace (Z.of_nat (length actions)) with (2 ^ 53 - 1) by lia.
  reflexivity.
Qed.

Lemma after_calls_large (actions : list value) :
  2 ^ 53 <= Z.of_nat (length actions) -> after_calls actions = saturated.
Proof.
  induction actions as [|a actions IH] using rev_ind; [done|].
  rewrite length_app. cbn [length]. intros Hlen.
  destruct (Z.eq_dec (Z.of_nat (length actions + 1)) (2 ^ 53)) as [He | Hne].
  - apply after_calls_limit. by rewrite length_app.
  - rewrite after_calls_snoc, IH by lia. reflexivity.
Qed.

(** X7: each of the first [2^53] calls of the function
    [useForceRerender] returns changes the hidden state, whatever
    argument it is called with: after [n] calls the state is [n], and the
    state after one more call is not [Object.is]-equal to it, so React
    does not bail out of the re-render. *)
Theorem forceRerender_changes_state (actions : list value) (a : value) :
  Z.of_nat (length actions) < 2 ^ 53 ->
  after_calls actions = Finite (Z.of_nat (length actions)) 0 /\
  number_eq (after_calls (actions ++ [a]))
            (Finite (Z.of_nat (length actions) + 1) 0) = true /\
  same_value (after_calls actions) (after_calls (actions ++ [a])) = false.
Proof.
  intros Hlen. rewrite (after_calls_small actions Hlen).
  split; [done|].
  set (n := Z.of_nat (length actions)) in *.
  assert (Hn : 0 <= n) by (subst n; lia).
  destruct (Z.eq_dec (n + 1) (2 ^ 53)) as [He | Hne].
  - rewrite (after_calls_limit (actions ++ [a]))
      by (rewrite length_app; cbn [length]; lia).
    replace n with (2 ^ 53 - 1) by lia. split; reflexivity.
  - rewrite after_calls_snoc, after_calls_small by done. fold n.
    rewrite add_one_small by lia.
    cbn [same_value number_eq]. unfold finite_compare.
    rewrite Z.min_id, Z.sub_diag, Z.pow_0_r, !Z.mul_1_r.
    rewrite Z.compare_refl.
    assert (Hlt : (n ?= n + 1) = Lt) by (apply Z.compare_lt_iff; lia).
    by rewrite Hlt.
Qed.

(** X8: from the [2^53]-th call on the hidden state is [2^53] and a call no
    longer changes it: [2^53 + 1] rounds back to [2^53], the new state is
    [Object.is]-equal to the old one. *)
Theorem forceRerender_saturates (actions : list value) (a : value) :
  2 ^ 53 <= Z.of_nat (length actions) ->
  number_eq (after_calls actions) (Finite (2 ^ 53) 0) = true /\
  same_value (after_calls actions) (after_calls (actions ++ [a])) = true.
Proof.
  intros Hlen. rewrite after_calls_snoc, (after_calls_large actions Hlen).
  split; reflexivity.
Qed.

Lemma forceRerender_changes_state_witness :
  Z.of_nat (length [VNull; VStr "again"]) < 2 ^ 53 /\
  after_calls [VNull; VStr "again"] = Finite 2 0 /\
  same_value (after_calls [VNull; VStr "again"])
             (after_calls ([VNull; VStr "again"] ++ [VUndefined])) = false.
Proof.
  assert (Hlen : Z.of_nat (length [VNull; VStr "again"]) < 2 ^ 53)
    by (vm_compute; reflexivity).
  split; [exact Hlen|].
  destruct (forceRerender_changes_state [VNull; VStr "again"] VUndefined Hlen)
    as (Hn & _ & Hs).
  split; [exact Hn | exact Hs].
Defined.

Lemma forceRerender_saturates_witness :
  2 ^ 53 <= Z.of_nat (length (replicate (Z.to_nat (2 ^ 53)) VUndefined)) /\
  same_value
    (after_calls (replicate (Z.to_nat (2 ^ 53)) VUndefined))
    (after_calls (replicate (Z.to_nat (2 ^ 53)) VUndefined ++ [VUndefined]))
  = true.
Proof.
  assert (Hlen : 2 ^ 53 <=
                 Z.of_nat (length (replicate (Z.to_nat (2 ^ 53)) VUndefined))).
  { rewrite length_replicate, Z2Nat.id; [apply Z.le_refl|].
    apply Z.pow_nonneg. discriminate. }
  split; [exact Hlen|].
  exact (proj2 (forceRerender_saturates _ VUndefined Hlen)).
Defined.

End RerenderProps.

(** ** Properties of the grid component *)

Module AppGridProps.
Import JS AppGrid.

Section Render.
Variable to_number_of : value -> number.

#[local] Abbreviation count v := (to_length (to_number to_number_of v)).

Lemma array_from_length_Some v :
  (count v <= max_array_length)%Z ->
  array_from_length to_number_of v =
    Some (replicate (Z.to_nat (count v)) VUndefined).
Proof.
  intros H. unfold array_from_length, max_array_length in *.
  destruct (Z.leb_spec (count v) (2 ^ 32 - 1)); [done | lia].
Qed.

Lemma array_from_length_None v :
  (max_array_length < count v)%Z -> array_from_length to_number_of v = None.
Proof.
  intros H. unfold array_from_length, max_array_length in *.
  destruct (Z.leb_spec (count v) (2 ^ 32 - 1)); [lia | done].
Qed.

(** The rows a grid of [r] rows and [c] columns is made of. *)
Lemma cell_matrix_Some p :
  (count (rows p) <= max_array_length)%Z ->
  (count (columns p) <= max_array_length)%Z ->
  cell_matrix to_number_of p =
    Some (imap (fun row _ =>
                  Host "div" (Some (Grid.index row))
                       [("style", AStyle [("display", VStr "flex")])]
                       [Items (imap (fun column _ => cell p row column)
                                 (replicate (Z.to_nat (count (columns p)))
                                            VUndefined))])
               (replicate (Z.to_nat (count (rows p))) VUndefined)).
Proof.
  intros Hr Hc. unfold cell_matrix.
  rewrite (array_from_length_Some _ Hr).
  apply mapM_Some_2. apply Forall2_same_length_lookup_2.
  - by rewrite !length_imap.
  - intros i x y Hx Hy. rewrite list_lookup_imap in Hx.
    rewrite list_lookup_imap in Hy.
    destruct (replicate _ VUndefined !! i); [|done].
    cbn in Hx, Hy. injection Hx as <-. injection Hy as <-.
    unfold cell_row. by rewrite (array_from_length_Some _ Hc).
Qed.

Lemma cell_matrix_empty p :
  count (rows p) = 0%Z -> cell_matrix to_number_of p = Some [].
Proof.
  intros H0. unfold cell_matrix.
  rewrite array_from_length_Some by (unfold max_array_length; lia).
  by rewrite H0.
Qed.

Lemma cell_matrix_None p :
  cell_matrix to_number_of p = None <->
  (max_array_length < count (rows p))%Z \/
  (0 < count (rows p) /\ max_array_length < count (columns p))%Z.
Proof.
  split.
  - intros Hnone.
    destruct (Z_lt_le_dec max_array_length (count (rows p))) as [?|Hr];
      [by left|].
    destruct (Z_lt_le_dec max_array_length (count (columns p))) as [Hc|Hc].
    + right. split; [|done].
      destruct (Z_lt_le_dec 0 (count (rows p))) as [?|Hz]; [done|].
      assert (H0 : count (rows p) = 0%Z).
      { unfold to_length in *. destruct (to_number _ _) as [|[]|m e]; lia. }
      by rewrite (cell_matrix_empty p H0) in Hnone.
    + by rewrite cell_matrix_Some in Hnone.
  - intros [Hr | [Hr Hc]]; unfold cell_matrix.
    + by rewrite array_from_length_None.
    + destruct (array_from_length to_number_of (rows p)) as [rs|] eqn:Hrs;
        [|done].
      apply mapM_None_2.
      unfold array_from_length in Hrs.
      destruct (_ <=? _)%Z; [|done]. injection Hrs as <-.
      destruct (Z.to_nat (count (rows p))) as [|n] eqn:Hn; [lia|].
      cbn [replicate]. rewrite imap_cons. apply Exists_cons_hd.
      unfold cell_row. by rewrite array_from_length_None.
Qed.

Lemma render_Some p keepUpdated matrix :
  cell_matrix to_number_of p = Some matrix ->
  exists t, render to_number_of p keepUpdated = Some t /\
            descend matrix_path t = Some (Items matrix) /\
            descend interval_path t =
              Some (if truthy keepUpdated then
                      Custom IntervalComponent None
                             [("onInterval", AValue (onUpdateGrid p));
                              ("interval", AValue (VNum (Finite 500 0)))]
                    else Null).
Proof.
  intros Hm. unfold render. rewrite Hm. eexists. split; [reflexivity|].
  split; reflexivity.
Qed.

(** X9: when the two counts fit an array, [AppGrid] renders one row [div]
    for each row index from 0, keyed by it, and in row [i] one [Cell]
    element for each column index [j] from 0, keyed by [j] and given the
    props [row = i] and [column = j]. *)
Theorem AppGrid_renders_one_cell_per_position (p : props) (keepUpdated : value) :
  (count (rows p) <= max_array_length)%Z ->
  (count (columns p) <= max_array_length)%Z ->
  exists t matrix,
    render to_number_of p keepUpdated = Some t /\
    descend matrix_path t = Some (Items matrix) /\
    length matrix = Z.to_nat (count (rows p)) /\
    forall i, i < Z.to_nat (count (rows p)) ->
      exists cells,
        matrix !! i =
          Some (Host "div" (Some (Grid.index i))
                     [("style", AStyle [("display", VStr "flex")])]
                     [Items cells]) /\
        length cells = Z.to_nat (count (columns p)) /\
        forall j, j < Z.to_nat (count (columns p)) ->
          cells !! j =
            Some (Custom (PropComponent (Cell p)) (Some (Grid.index j))
                         [("row", AValue (Grid.index i));
                          ("column", AValue (Grid.index j))]).
Proof.
  intros Hr Hc.
  destruct (render_Some p keepUpdated _ (cell_matrix_Some p Hr Hc))
    as (t & Ht & Hm & _).
  exists t. eexists. split; [exact Ht|]. split; [exact Hm|].
  split; [by rewrite length_imap, length_replicate|].
  intros i Hi. eexists. split; [|split].
  - rewrite list_lookup_imap, lookup_replicate_2 by done. reflexivity.
  - by rewrite length_imap, length_replicate.
  - intros j Hj. rewrite list_lookup_imap, lookup_replicate_2 by done.
    reflexivity.
Qed.

(** X10: rendering [AppGrid] throws exactly when [rows] asks for an array
    longer than [2^32 - 1], or when there is at least one row and
    [columns] does; with no row, [columns] is never made into an array
    and cannot make the render fail. *)
Theorem AppGrid_render_throws_on_long_arrays (p : props) (keepUpdated : value) :
  render to_number_of p keepUpdated = None <->
  (max_array_length < count (rows p))%Z \/
  (0 < count (rows p) /\ max_array_length < count (columns p))%Z.
Proof.
  rewrite <- cell_matrix_None. unfold render.
  destruct (cell_matrix to_number_of p); split; done.
Qed.


End Render.

Lemma AppGrid_renders_one_cell_per_position_witness :
  (to_length (to_number no_conversion (rows sample_props)) <= max_array_length)%Z /\
  (to_length (to_number no_conversion (columns sample_props)) <= max_array_length)%Z /\
  exists t matrix,
    render no_conversion sample_props initial_keepUpdated = Some t /\
    descend matrix_path t = Some (Items matrix) /\
    length matrix = 2.
Proof.
  assert (Hr : (to_length (to_number no_conversion (rows sample_props))
                <= max_array_length)%Z) by (vm_compute; discriminate).
  assert (Hc : (to_length (to_number no_conversion (columns sample_props))
                <= max_array_length)%Z) by (vm_compute; discriminate).
  split; [exact Hr|]. split; [exact Hc|].
  destruct (AppGrid_renders_one_cell_per_position no_conversion sample_props
              initial_keepUpdated Hr Hc) as (t & matrix & Ht & Hm & Hlen & _).
  exists t, matrix. split; [exact Ht|]. split; [exact Hm|]. exact Hlen.
Defined.


End AppGridProps.

(** ** More on the async-state hook *)

Module AsyncMore.
Import JS Async AsyncProps.

(** *** The flags for any state *)

Lemma strict_eq_VStr v s : strict_eq v (VStr s) = true -> v = VStr s.
Proof.
  destruct v; try discriminate. cbn [strict_eq]. intros H.
  by apply String.eqb_eq in H as ->.
Qed.

(** X12: whatever the state, with any initial overrides, a render never
    computes two of the flags as true; and it computes exactly one as
    true if and only if [status] is one of [idle], [pending], [rejected],
    [resolved]. *)
Theorem flags_at_most_one (t : tracker) :
  count_true (flags (render t)) <= 1 /\
  (count_true (flags (render t)) = 1 <-> status (render t) ∈ statuses).
Proof.
  unfold render, flags, count_true.
  cbn [isIdle isLoading isError isSuccess status].
  set (s := field (state t) "status"). clearbody s.
  destruct (strict_eq s (VStr "idle")) eqn:E1.
  { apply strict_eq_VStr in E1 as ->. split; [vm_compute; lia|].
    split; [intros _; unfold statuses; set_solver | reflexivity]. }
  destruct (strict_eq s (VStr "pending")) eqn:E2.
  { apply strict_eq_VStr in E2 as ->. split; [vm_compute; lia|].
    split; [intros _; unfold statuses; set_solver | reflexivity]. }
  destruct (strict_eq s (VStr "rejected")) eqn:E3.
  { apply strict_eq_VStr in E3 as ->. split; [vm_compute; lia|].
    split; [intros _; unfold statuses; set_solver | reflexivity]. }
  destruct (strict_eq s (VStr "resolved")) eqn:E4.
  { apply strict_eq_VStr in E4 as ->. split; [vm_compute; lia|].
    split; [intros _; unfold statuses; set_solver | reflexivity]. }
  split; [vm_compute; lia|]. split; [discriminate|].
  unfold statuses. intros Hin.
  repeat (apply elem_of_cons in Hin as [-> | Hin]); try discriminate.
  by apply elem_of_nil in Hin.
Qed.

(** *** The gate *)

(** X13: only the layout effect and its cleanup touch [mounted.current]:
    after any events the flag is what the last attach or detach among
    them made it, or what it was if there was none. *)
Theorem mounted_follows_lifecycle (es : list event) (w : world) :
  mounted (hook (exec es w)) =
  foldl (fun m e => match e with
                    | Attach => true
                    | Detach => false
                    | _ => m
                    end) (mounted (hook w)) es.
Proof.
  revert w. induction es as [|e es IH]; intros w; [done|].
  cbn [foldl]. change (exec (e :: es) w) with (exec es (step e w)).
  rewrite IH. f_equal.
  destruct e; cbn [step on_hook hook]; try done.
  - destruct (hook_run promise w) as [-> | ->]; [done|].
    apply mounted_safeSetState.
  - apply mounted_safeSetState.
  - apply mounted_safeSetState.
  - apply mounted_safeSetState.
  - destruct (can_settle p w); [by rewrite hook_settle | done].
  - destruct (jobs w) as [|[o d] rest]; [done|].
    by rewrite hook_run_job, mounted_react.
  - destruct (handed w); [done|]. cbn [on_hook hook]. apply mounted_react.
Qed.

(** *** Manual overrides *)

(** X14: the manual overrides compose as writes to one field each: a second
    [setData] replaces the first, [setData] and [setError] commute, and
    [reset] twice is [reset] once. *)
Theorem overrides_compose (t : tracker) (x y e : value) :
  setData y (setData x t) = setData y t /\
  setError e (setData x t) = setData x (setError e t) /\
  reset (reset t) = reset t.
Proof.
  unfold setData, setError, reset, safeSetState, useSafeDispatch, setState.
  destruct t as [m i s]. cbn [mounted state initialStateRef].
  destruct m; cbn [mounted state initialStateRef]; [|done].
  unfold reducer. repeat split; f_equal.
  - rewrite (assoc_L (∪)). reflexivity.
  - rewrite !(assoc_L (∪)). reflexivity.
  - rewrite (assoc_L (∪)). f_equal. apply (idemp_L (∪)).
Qed.

(** *** Runs that overlap *)

Lemma tick_head w o d rest :
  jobs w = (o, d) :: rest -> mounted (hook w) = true ->
  tracks o (hook (step Tick w)).
Proof.
  intros Hj Hm. cbn [step]. rewrite Hj, hook_run_job. cbn [hook].
  by apply tracks_react.
Qed.

(** The world after [run] on a promise that has not settled. *)
Lemma run_unsettled p w :
  settled w !! p = None ->
  (run (VPromise p) w).2 =
  World (safeSetState {[ "status" := VStr "pending" ]} (hook w))
        (settled w) (locked w) (reactions w ++ [(p, next_drv w)]) (jobs w)
        (handed w) (S (next_drv w)).
Proof.
  intros Hp. rewrite run_promise. unfold promise_then. cbn [snd on_hook settled].
  by rewrite Hp.
Qed.

Lemma filter_keeps_all (l : list (pid * nat)) p :
  Forall (fun r => r.1 <> p) l ->
  filter (fun r : pid * nat => r.1 <> p) l = l /\
  filter (fun r : pid * nat => r.1 = p) l = [].
Proof.
  induction 1 as [|r l Hne _ [IH1 IH2]]; [done|].
  rewrite filter_cons_True by done. rewrite filter_cons_False by done.
  by rewrite IH1.
Qed.

(** A reaction job with no continuation waiting on the promise it
    resolves leaves the queue and the waiting continuations as they
    are. *)
Lemma run_job_no_waiters o d w :
  Forall (fun r => r.1 <> Drv d) (reactions w) ->
  reactions (run_job o d w) = reactions w /\
  jobs (run_job o d w) = jobs w /\
  (forall n, settled (run_job o d w) !! Ext n = settled w !! Ext n).
Proof.
  intros Hr. unfold run_job. destruct (react o (hook w)) as [v t].
  destruct (filter_keeps_all _ _ Hr) as [Hkeep Hnone].
  unfold resolve. destruct (strict_eq v (VPromise (Drv d))).
  - cbn [settle on_hook reactions jobs settled].
    rewrite Hkeep, Hnone. cbn. rewrite app_nil_r.
    split; [done|]. split; [done|]. intros n. by rewrite lookup_insert_ne.
  - destruct (awaitable v); [done|].
    cbn [settle on_hook reactions jobs settled].
    rewrite Hkeep, Hnone. cbn. rewrite app_nil_r.
    split; [done|]. split; [done|]. intros n. by rewrite lookup_insert_ne.
Qed.

(** X15: nothing ties the state to the latest call of [run]: when two
    promises are given to [run] one after the other and the second
    settles first, the state ends up showing the outcome of the first,
    the one that settled last. *)
Theorem later_settlement_wins (w : world) (n1 n2 : nat) (o1 o2 : outcome) :
  mounted (hook w) = true ->
  reactions w = [] -> jobs w = [] ->
  n1 <> n2 ->
  settled w !! Ext n1 = None -> settled w !! Ext n2 = None ->
  tracks o2 (hook (exec [Run (VPromise (Ext n1)); Run (VPromise (Ext n2));
                         Settle (Ext n2) o2; Tick] w)) /\
  tracks o1 (hook (exec [Run (VPromise (Ext n1)); Run (VPromise (Ext n2));
                         Settle (Ext n2) o2; Tick;
                         Settle (Ext n1) o1; Tick] w)).
Proof.
  intros Hm Hr Hj Hne H1 H2.
  set (d := next_drv w).
  (* the two calls *)
  set (w1 := (run (VPromise (Ext n1)) w).2).
  assert (Hw1 : w1 = World (safeSetState {[ "status" := VStr "pending" ]} (hook w))
                       (settled w) (locked w) [(Ext n1, d)] [] (handed w) (S d)).
  { subst w1. rewrite run_unsettled by done. by rewrite Hr, Hj. }
  set (w2 := (run (VPromise (Ext n2)) w1).2).
  assert (Hw2 : reactions w2 = [(Ext n1, d); (Ext n2, S d)] /\ jobs w2 = [] /\
                settled w2 = settled w /\ mounted (hook w2) = true).
  { subst w2. rewrite run_unsettled by (by rewrite Hw1).
    rewrite Hw1. cbn [reactions jobs settled hook next_drv app].
    by rewrite !mounted_safeSetState. }
  destruct Hw2 as (Hr2 & Hj2 & Hs2 & Hm2).
  (* the second promise settles *)
  set (w3 := step (Settle (Ext n2) o2) w2).
  assert (Hw3 : reactions w3 = [(Ext n1, d)] /\ jobs w3 = [(o2, S d)] /\
                settled w3 !! Ext n1 = None /\ mounted (hook w3) = true).
  { subst w3. cbn [step]. unfold can_settle. rewrite Hs2, H2.
    cbn [settle reactions jobs settled hook]. rewrite Hr2, Hj2, Hs2.
    rewrite !filter_cons, !filter_nil. cbn [fst].
    assert (Hp : Ext n1 <> Ext n2) by congruence.
    repeat case_decide; try congruence.
    cbn. rewrite lookup_insert_ne by congruence. done. }
  destruct Hw3 as (Hr3 & Hj3 & Hs3 & Hm3).
  set (w4 := step Tick w3).
  assert (Ht2 : tracks o2 (hook w4)) by (by apply (tick_head w3 o2 (S d) [])).
  split; [exact Ht2|].
  assert (Hw4 : reactions w4 = [(Ext n1, d)] /\ jobs w4 = [] /\
                settled w4 !! Ext n1 = None /\ mounted (hook w4) = true).
  { subst w4. cbn [step]. rewrite Hj3.
    set (w3' := World _ _ _ _ _ _ _).
    destruct (run_job_no_waiters o2 (S d) w3') as (Hr4 & Hj4 & Hs4).
    { subst w3'. cbn [reactions]. rewrite Hr3. by repeat constructor. }
    rewrite Hr4, Hj4, Hs4. subst w3'. cbn [reactions jobs settled].
    split; [done|]. split; [done|]. split; [done|].
    by rewrite hook_run_job, mounted_react. }
  destruct Hw4 as (Hr4 & Hj4 & Hs4 & Hm4).
  (* the first promise settles *)
  set (w5 := step (Settle (Ext n1) o1) w4).
  assert (Hw5 : jobs w5 = [(o1, d)] /\ mounted (hook w5) = true).
  { subst w5. cbn [step]. unfold can_settle. rewrite Hs4.
    cbn [settle jobs hook]. rewrite Hr4, Hj4.
    rewrite filter_cons, filter_nil. cbn [fst].
    case_decide; [|congruence]. done. }
  destruct Hw5 as [Hj5 Hm5].
  by apply (tick_head w5 o1 d []).
Qed.

Lemma later_settlement_wins_witness :
  mounted (hook (step Attach (mount VUndefined))) = true /\
  reactions (step Attach (mount VUndefined)) = [] /\
  jobs (step Attach (mount VUndefined)) = [] /\
  0 <> 1 /\
  settled (step Attach (mount VUndefined)) !! Ext 0 = None /\
  settled (step Attach (mount VUndefined)) !! Ext 1 = None /\
  tracks (Rejected (VStr "stale"))
         (hook (exec [Run (VPromise (Ext 0)); Run (VPromise (Ext 1));
                      Settle (Ext 1) (Fulfilled (VStr "fresh")); Tick;
                      Settle (Ext 0) (Rejected (VStr "stale")); Tick]
                     (step Attach (mount VUndefined)))).
Proof.
  assert (Hm : mounted (hook (step Attach (mount VUndefined))) = true)
    by reflexivity.
  assert (Hr : reactions (step Attach (mount VUndefined)) = []) by reflexivity.
  assert (Hj : jobs (step Attach (mount VUndefined)) = []) by reflexivity.
  assert (Hne : 0 <> 1) by discriminate.
  assert (H0 : settled (step Attach (mount VUndefined)) !! Ext 0 = None)
    by exact (lookup_empty _).
  assert (H1 : settled (step Attach (mount VUndefined)) !! Ext 1 = None)
    by exact (lookup_empty _).
  repeat (split; [assumption|]).
  exact (proj2 (later_settlement_wins (step Attach (mount VUndefined)) 0 1
                  (Rejected (VStr "stale")) (Fulfilled (VStr "fresh"))
                  Hm Hr Hj Hne H0 H1)).
Defined.

(** X16: a tracker is detached from construction until its layout effect
    has run: a [run] before that registers the continuations but shows
    no [pending], and the outcome is recorded all the same once the
    tracker is attached when the promise settles. *)
Theorem run_before_attach_shows_no_pending
    (initialState : value) (n : nat) (o : outcome) :
  state (hook (step (Run (VPromise (Ext n))) (mount initialState))) =
    state (hook (mount initialState)) /\
  tracks o (hook (exec [Run (VPromise (Ext n)); Attach;
                        Settle (Ext n) o; Tick] (mount initialState))).
Proof.
  split; [reflexivity|].
  change (exec [Run (VPromise (Ext n)); Attach; Settle (Ext n) o; Tick]
               (mount initialState))
    with (step Tick (exec [Run (VPromise (Ext n)); Attach; Settle (Ext n) o]
                          (mount initialState))).
  apply (tick_head _ o 0 []); [|reflexivity].
  cbn [exec foldl step]. rewrite run_unsettled by apply lookup_empty.
  unfold can_settle. cbn [on_hook settled mount].
  rewrite lookup_empty. cbn [settle jobs reactions on_hook mount next_drv app].
  rewrite filter_cons, filter_nil. cbn [fst].
  case_decide; [|congruence]. done.
Qed.

(** *** Promises settled before the call *)

(** X17: [run] never shows an outcome synchronously: given a promise that
    has already settled, the call leaves the state at [pending], with
    [data] and [error] as they were, and the outcome is recorded by the
    next microtask. *)
Theorem run_defers_settled_outcome (w : world) (p : pid) (o : outcome) :
  mounted (hook w) = true -> jobs w = [] -> settled w !! p = Some o ->
  field (state (hook (step (Run (VPromise p)) w))) "status" = VStr "pending" /\
  field (state (hook (step (Run (VPromise p)) w))) "data" =
    field (state (hook w)) "data" /\
  field (state (hook (step (Run (VPromise p)) w))) "error" =
    field (state (hook w)) "error" /\
  tracks o (hook (exec [Run (VPromise p); Tick] w)).
Proof.
  intros Hm Hj Hp.
  assert (Hrun : step (Run (VPromise p)) w =
                 World (safeSetState {[ "status" := VStr "pending" ]} (hook w))
                       (settled w) (locked w) (reactions w) [(o, next_drv w)]
                       (handed w) (S (next_drv w))).
  { cbn [step]. rewrite run_promise. unfold promise_then.
    cbn [snd on_hook settled]. rewrite Hp.
    unfold on_hook. cbn [hook settled locked reactions jobs handed next_drv].
    by rewrite Hj. }
  split; [|split; [|split]].
  - rewrite Hrun. cbn [hook]. rewrite safeSetState_attached by done.
    cbn [setState state]. by apply field_reducer_set.
  - rewrite Hrun. cbn [hook]. rewrite safeSetState_attached by done.
    cbn [setState state]. by apply field_reducer_keep.
  - rewrite Hrun. cbn [hook]. rewrite safeSetState_attached by done.
    cbn [setState state]. by apply field_reducer_keep.
  - change (exec [Run (VPromise p); Tick] w)
      with (step Tick (step (Run (VPromise p)) w)).
    apply (tick_head _ o (next_drv w) []); rewrite Hrun; [done|].
    cbn [hook]. by rewrite mounted_safeSetState.
Qed.

Lemma run_defers_settled_outcome_witness :
  mounted (hook (exec [Attach; Settle (Ext 0) (Fulfilled (VStr "done"))]
                      (mount VUndefined))) = true /\
  jobs (exec [Attach; Settle (Ext 0) (Fulfilled (VStr "done"))]
             (mount VUndefined)) = [] /\
  settled (exec [Attach; Settle (Ext 0) (Fulfilled (VStr "done"))]
                (mount VUndefined)) !! Ext 0 = Some (Fulfilled (VStr "done")) /\
  field (state (hook (step (Run (VPromise (Ext 0)))
                       (exec [Attach; Settle (Ext 0) (Fulfilled (VStr "done"))]
                             (mount VUndefined))))) "status" = VStr "pending".
Proof.
  assert (Hm : mounted (hook (exec [Attach; Settle (Ext 0) (Fulfilled (VStr "done"))]
                                   (mount VUndefined))) = true) by reflexivity.
  assert (Hj : jobs (exec [Attach; Settle (Ext 0) (Fulfilled (VStr "done"))]
                          (mount VUndefined)) = []) by reflexivity.
  assert (Hp : settled (exec [Attach; Settle (Ext 0) (Fulfilled (VStr "done"))]
                             (mount VUndefined)) !! Ext 0
               = Some (Fulfilled (VStr "done"))) by (vm_compute; reflexivity).
  split; [exact Hm|]. split; [exact Hj|]. split; [exact Hp|].
  exact (proj1 (run_defers_settled_outcome _ (Ext 0) (Fulfilled (VStr "done"))
                  Hm Hj Hp)).
Defined.

End AsyncMore.

(** ** More on the grid helpers *)

Module GridMore.
Import JS Grid GridProps.

#[local] Arguments strict_eq : simpl never.
#[local] Arguments fresh_cell : simpl never.

(** *** The threshold *)

Section Threshold.
#[local] Open Scope Z_scope.

Lemma to_Q_gt_int m k c :
  0 <= k -> ((inject_Z c < to_Q m (- k))%Q <-> c * 2 ^ k < m).
Proof.
  intros Hk. rewrite to_Q_neg_exp by done.
  assert (Hp : 0 < 2 ^ k) by (apply Z.pow_pos_nonneg; lia).
  assert (HpQ : (inject_Z 0 < inject_Z (2 ^ k))%Q) by (rewrite <- Zlt_Qlt; done).
  change (inject_Z 0) with 0%Q in HpQ.
  assert (Hnz : ~ (inject_Z (2 ^ k) == 0)%Q).
  { intros E. rewrite E in HpQ. by apply Qlt_irrefl in HpQ. }
  rewrite Zlt_Qlt, inject_Z_mult. split; intros H.
  - apply (Qmult_lt_r _ _ (/ inject_Z (2 ^ k))); [by apply Qinv_lt_0_compat|].
    by rewrite <- Qmult_assoc, Qmult_inv_r, Qmult_1_r.
  - apply (Qmult_lt_r _ _ (/ inject_Z (2 ^ k))) in H;
      [|by apply Qinv_lt_0_compat].
    by rewrite <- Qmult_assoc, Qmult_inv_r, Qmult_1_r in H.
Qed.

(** The same number with a smaller exponent. *)
Lemma to_Q_shift m e k :
  0 <= k -> 0 <= e + k -> (to_Q m e == to_Q (m * 2 ^ (e + k)) (- k))%Q.
Proof.
  intros Hk Hek. unfold to_Q.
  rewrite inject_Z_mult, (Zpower_Qpower 2 (e + k) Hek).
  rewrite <- Qmult_assoc. apply Qmult_comp; [reflexivity|].
  rewrite <- Qpower_plus by discriminate.
  replace (e + k + - k) with e by lia. reflexivity.
Qed.

Lemma seven_tenths_lt m k :
  0 <= k -> ((7 # 10 < to_Q m (- k))%Q <-> 7 * 2 ^ k < 10 * m).
Proof.
  intros Hk. rewrite <- (to_Q_gt_int (10 * m) k 7 Hk).
  assert (H10 : (to_Q (10 * m) (- k) == 10 * to_Q m (- k))%Q).
  { unfold to_Q. rewrite inject_Z_mult. change (inject_Z 10) with 10%Q.
    by rewrite Qmult_assoc. }
  rewrite H10. change (inject_Z 7) with 7%Q. split; intros H; lra.
Qed.

(** The literal [0.7] cuts the binary64 numbers where 7/10 does. *)
Lemma gt_seven_tenths m e :
  binary64 m e ->
  number_gt (Finite m e) seven_tenths = true <-> (7 # 10 < to_Q m e)%Q.
Proof.
  intros [Hm _]. unfold seven_tenths. cbn [number_gt]. unfold finite_compare.
  destruct (Z_le_dec (-53) e) as [He | He].
  - (* a multiple of 2^-53 *)
    rewrite Z.min_r by lia. rewrite Z.sub_diag, Z.pow_0_r, Z.mul_1_r.
    replace (e - -53) with (e + 53) by lia.
    rewrite (to_Q_shift m e 53) by lia.
    rewrite seven_tenths_lt by lia.
    set (N := m * 2 ^ (e + 53)).
    change (2 ^ 53) with 9007199254740992.
    destruct (Z.compare_spec N 6305039478318694) as [Heq | Hlt | Hgt];
      split; intros H; (done || lia).
  - (* below one half *)
    rewrite Z.min_l by lia. rewrite Z.sub_diag, Z.pow_0_r, Z.mul_1_r.
    set (k := -53 - e). assert (Hk : 1 <= k) by (subst k; lia).
    assert (Hp : 2 <= 2 ^ k).
    { change 2 with (2 ^ 1) at 1. apply Z.pow_le_mono_r; lia. }
    change (2 ^ 53) with 9007199254740992 in Hm.
    assert (Hlt : m < 6305039478318694 * 2 ^ k) by lia.
    apply Z.compare_lt_iff in Hlt. rewrite Hlt.
    apply Z.compare_lt_iff in Hlt.
    replace e with (- (53 + k)) by (subst k; lia).
    rewrite seven_tenths_lt by lia.
    rewrite Z.pow_add_r by lia. change (2 ^ 53) with 9007199254740992.
    split; intros H; [done | nia].
Qed.

End Threshold.

(** X18: a cell is replaced exactly when the draw made for it is greater
    than 7/10: rounding the literal [0.7] to binary64 moves the threshold
    across no number a draw can be.  A draw of at most 7/10 keeps the cell
    and makes no second draw. *)
Theorem regenerate_threshold
    (draws : nat -> number) (cell : number) (k : nat) (m e : Z) :
  draws k = Finite m e -> binary64 m e ->
  ((7 # 10 < to_Q m e)%Q ->
   regenerate draws cell k = (mul (draws (S k)) hundred, S (S k))) /\
  ((to_Q m e <= 7 # 10)%Q -> regenerate draws cell k = (cell, S k)).
Proof.
  intros Hd Hb. unfold regenerate, random. rewrite Hd.
  pose proof (gt_seven_tenths m e Hb) as Hgt.
  destruct (number_gt (Finite m e) seven_tenths); split; intros H.
  - reflexivity.
  - exfalso. apply (Qlt_not_le _ _ (proj1 Hgt eq_refl)). exact H.
  - apply Hgt in H. discriminate.
  - reflexivity.
Qed.

(** *** The draws made *)

Lemma map_from_app {A B : Type} (f : A -> nat -> nat -> B * nat) l1 l2 :
  forall i k,
    map_from f i (l1 ++ l2) k =
    let '(r1, k1) := map_from f i l1 k in
    let '(r2, k2) := map_from f (i + length l1) l2 k1 in
    (r1 ++ r2, k2).
Proof.
  induction l1 as [|x l1 IH]; intros i k.
  - cbn. rewrite Nat.add_0_r. by destruct (map_from f i l2 k).
  - cbn [app map_from length]. destruct (f x i k) as [y k1].
    rewrite IH. rewrite Nat.add_succ_r.
    destruct (map_from f (S i) l1 k1) as [r1 k2]. cbn [Nat.add].
    by destruct (map_from f (S (i + length l1)) l2 k2).
Qed.

(** No two indices are [===] to the same value. *)
Lemma index_match_unique i j v :
  strict_eq (index i) v = true -> strict_eq (index j) v = true -> i = j.
Proof.
  unfold index, strict_eq. destruct v as [| | |[| |m e]| | | | | |]; try done.
  cbn [number_eq]. unfold finite_compare.
  set (e0 := Z.min 0 e).
  destruct (_ ?= _)%Z eqn:Hi; [|done|done].
  destruct (Z.of_nat j * _ ?= _)%Z eqn:Hj; [|done|done].
  intros _ _. apply Z.compare_eq in Hi, Hj.
  assert (Hp : (0 < 2 ^ (0 - e0))%Z) by (apply Z.pow_pos_nonneg; lia).
  nia.
Qed.

(** X19: when the coordinates name a cell of the grid,
    [updateGridCellState] makes exactly one draw and the cell becomes
    that draw times 100. *)
Theorem updateGridCellState_makes_one_draw
    (draws : nat -> number) (g : grid) (c : coords) (k i j : nat) :
  points_at c i j = true -> is_Some (cell_at g i j) ->
  (updateGridCellState draws g c k).2 = S k /\
  cell_at (updateGridCellState draws g c k).1 i j =
    Some (mul (draws k) hundred).
Proof.
  intros Hp [x Hx]. unfold points_at in Hp.
  apply andb_prop in Hp as [Hrow Hcol].
  unfold cell_at in Hx.
  destruct (g !! i) as [cells|] eqn:Hi; [|done]. cbn in Hx.
  (* the row and the cell, and what is around them *)
  set (cell_fn := fun (cell : number) (cI k : nat) =>
         if strict_eq (index cI) (column c) then fresh_cell draws k
         else (cell, k)).
  set (row_fn := fun (cells : list number) (rI k : nat) =>
         if strict_eq (index rI) (row c) then map_from cell_fn 0 cells k
         else (cells, k)).
  assert (Hother_cell : forall l i0 k0,
            (forall n, n < length l -> i0 + n <> j) ->
            map_from cell_fn i0 l k0 = (l, k0)).
  { intros l i0 k0 Hn. rewrite <- (list_fmap_id l) at 2.
    apply map_from_id. intros n y Hy k'. unfold cell_fn.
    destruct (strict_eq (index (i0 + n)) (column c)) eqn:E; [|done].
    exfalso. apply (Hn n); [by eapply lookup_lt_Some|].
    by apply (index_match_unique _ _ (column c)). }
  assert (Hother_row : forall l i0 k0,
            (forall n, n < length l -> i0 + n <> i) ->
            map_from row_fn i0 l k0 = (l, k0)).
  { intros l i0 k0 Hn. rewrite <- (list_fmap_id l) at 2.
    apply map_from_id. intros n y Hy k'. unfold row_fn.
    destruct (strict_eq (index (i0 + n)) (row c)) eqn:E; [|done].
    exfalso. apply (Hn n); [by eapply lookup_lt_Some|].
    by apply (index_match_unique _ _ (row c)). }
  assert (Hrow_i : map_from cell_fn 0 cells k =
                   (<[j := mul (draws k) hundred]> cells, S k)).
  { rewrite <- (take_drop_middle cells j x Hx) at 1.
    pose proof (lookup_lt_Some _ _ _ Hx) as Hlt.
    rewrite map_from_app.
    rewrite (Hother_cell (take j cells) 0 k)
      by (intros n Hn; rewrite length_take in Hn; lia).
    cbn [map_from]. rewrite length_take, Nat.min_l by lia. cbn [Nat.add].
    unfold cell_fn at 1. rewrite Hcol.
    change (fresh_cell draws k) with (mul (draws k) hundred, S k).
    lazy beta iota.
    rewrite (Hother_cell (drop (S j) cells) (S j) (S k)) by (intros n _; lia).
    by rewrite (insert_take_drop cells j) by done. }
  assert (Hall : updateGridCellState draws g c k =
                 (<[i := <[j := mul (draws k) hundred]> cells]> g, S k)).
  { unfold updateGridCellState. fold cell_fn. fold row_fn.
    rewrite <- (take_drop_middle g i cells Hi) at 1.
    pose proof (lookup_lt_Some _ _ _ Hi) as Hlt.
    rewrite map_from_app.
    rewrite (Hother_row (take i g) 0 k)
      by (intros n Hn; rewrite length_take in Hn; lia).
    cbn [map_from]. rewrite length_take, Nat.min_l by lia. cbn [Nat.add].
    unfold row_fn at 1. rewrite Hrow, Hrow_i. lazy beta iota.
    rewrite (Hother_row (drop (S i) g) (S i) (S k)) by (intros n _; lia).
    by rewrite (insert_take_drop g i) by done. }
  rewrite Hall. split; [done|]. unfold cell_at. cbn [fst].
  rewrite list_lookup_insert_eq by (by eapply lookup_lt_Some). cbn.
  by rewrite list_lookup_insert_eq by (by eapply lookup_lt_Some).
Qed.

Lemma map_from_bounds {A B : Type} (f : A -> nat -> nat -> B * nat)
    (lo hi : A -> nat) :
  (forall x i k, k + lo x <= (f x i k).2 <= k + hi x) ->
  forall l i k,
    k + sum_list (lo <$> l) <= (map_from f i l k).2 <= k + sum_list (hi <$> l).
Proof.
  intros Hf l. induction l as [|x l IH]; intros i k; [cbn; lia|].
  cbn [map_from fmap list_fmap sum_list]. cbn. unfold id.
  pose proof (Hf x i k) as Hx. destruct (f x i k) as [y k1].
  pose proof (IH (S i) k1) as Hl. destruct (map_from f (S i) l k1) as [ys k2].
  cbn [snd] in *. unfold sum_list, id in *. lia.
Qed.

Lemma sum_list_const {A : Type} (l : list A) n :
  sum_list ((fun _ => n) <$> l) = n * length l.
Proof. induction l as [|x l IH]; cbn in *; unfold id in *; lia. Qed.

Lemma sum_list_row_lengths (g : grid) n :
  sum_list ((fun row => n * length row) <$> g) = n * cells g.
Proof.
  unfold cells. induction g as [|row g IH]; cbn in *; unfold id in *; lia.
Qed.

(** X20: [updateGridState] makes one draw for each cell it keeps and two
    for each cell it replaces: in all at least as many draws as the grid
    has cells and at most twice as many. *)
Theorem updateGridState_draws_per_cell
    (draws : nat -> number) (g : grid) (k : nat) :
  k + cells g <= (updateGridState draws g k).2 <= k + 2 * cells g.
Proof.
  unfold updateGridState.
  pose proof (map_from_bounds
    (fun row (_ : nat) => map_from (fun cell (_ : nat) => regenerate draws cell) 0 row)
    (fun row => 1 * length row) (fun row => 2 * length row)) as H.
  rewrite <- (Nat.mul_1_l (cells g)) at 1.
  rewrite <- !sum_list_row_lengths. apply H. clear.
  intros row _ k.
  rewrite <- !(sum_list_const row).
  apply map_from_bounds. clear. intros cell _ k.
  unfold regenerate, fresh_cell, random.
  lazy beta iota zeta.
  destruct (number_gt (draws k) seven_tenths); cbn [snd]; lia.
Qed.

(** X21: when none of the draws is greater than [0.7], [updateGridState]
    returns the grid as it was, having made one draw for each cell. *)
Theorem updateGridState_keeps_grid_under_threshold
    (draws : nat -> number) (g : grid) (k : nat) :
  (forall i, k <= i < k + cells g ->
             number_gt (draws i) seven_tenths = false) ->
  updateGridState draws g k = (g, k + cells g).
Proof.
  unfold updateGridState, cells.
  assert (Hrow : forall (row : list number) j k0,
    (forall i, k0 <= i < k0 + length row ->
               number_gt (draws i) seven_tenths = false) ->
    map_from (fun cell (_ : nat) => regenerate draws cell) j row k0
      = (row, k0 + length row)).
  { intros row. induction row as [|x row IH]; intros j k0 H.
    - cbn. by rewrite Nat.add_0_r.
    - cbn [map_from length]. unfold regenerate at 1, random.
      rewrite H by (cbn [length]; lia).
      rewrite IH by (intros i Hi; apply H; cbn [length]; lia).
      f_equal. lia. }
  intros H.
  enough (Hg : forall j k0,
    (forall i, k0 <= i < k0 + sum_list (length <$> g) ->
               number_gt (draws i) seven_tenths = false) ->
    map_from (fun row (_ : nat) =>
                map_from (fun cell (_ : nat) => regenerate draws cell) 0 row)
             j g k0 = (g, k0 + sum_list (length <$> g))) by exact (Hg 0 k H).
  clear k H. induction g as [|row g IH]; intros j k H.
  - cbn. by rewrite Nat.add_0_r.
  - cbn [map_from fmap list_fmap] in *.
    assert (Hs : sum_list (length row :: (length <$> g))
                 = length row + sum_list (length <$> g)) by reflexivity.
    rewrite Hs in *.
    rewrite Hrow by (intros i Hi; apply H; lia).
    rewrite IH by (intros i Hi; apply H; lia).
    f_equal. lia.
Qed.

Lemma regenerate_threshold_witness :
  sample_draws 12 = Finite 12 (-4) /\ binary64 12 (-4) /\
  (7 # 10 < to_Q 12 (-4))%Q /\
  regenerate sample_draws (Finite 1 0) 12 =
    (mul (sample_draws 13) hundred, 14).
Proof.
  assert (Hd : sample_draws 12 = Finite 12 (-4)) by reflexivity.
  assert (Hb : binary64 12 (-4)) by (vm_compute; repeat split; discriminate).
  assert (Hq : (7 # 10 < to_Q 12 (-4))%Q) by (vm_compute; reflexivity).
  split; [exact Hd|]. split; [exact Hb|]. split; [exact Hq|].
  exact (proj1 (regenerate_threshold sample_draws (Finite 1 0) 12 12 (-4) Hd Hb)
               Hq).
Defined.

Lemma updateGridCellState_makes_one_draw_witness :
  points_at (Coords (index 1) (index 0)) 1 0 = true /\
  is_Some (cell_at sample_grid 1 0) /\
  (updateGridCellState sample_draws sample_grid
     (Coords (index 1) (index 0)) 5).2 = 6 /\
  cell_at (updateGridCellState sample_draws sample_grid
             (Coords (index 1) (index 0)) 5).1 1 0 =
    Some (mul (sample_draws 5) hundred).
Proof.
  assert (Hp : points_at (Coords (index 1) (index 0)) 1 0 = true) by reflexivity.
  assert (Hc : is_Some (cell_at sample_grid 1 0)) by (by eexists).
  split; [exact Hp|]. split; [exact Hc|].
  exact (updateGridCellState_makes_one_draw sample_draws sample_grid
           (Coords (index 1) (index 0)) 5 1 0 Hp Hc).
Defined.

Lemma updateGridState_keeps_grid_under_threshold_witness :
  (forall i, 0 <= i < 0 + cells sample_grid ->
             number_gt (sample_draws i) seven_tenths = false) /\
  updateGridState sample_draws sample_grid 0 = (sample_grid, 0 + cells sample_grid).
Proof.
  assert (H : forall i, 0 <= i < 0 + cells sample_grid ->
                        number_gt (sample_draws i) seven_tenths = false).
  { intros i Hi. change (cells sample_grid) with 4 in Hi.
    destruct i as [|[|[|[|i]]]]; [reflexivity .. | lia]. }
  split; [exact H|].
  exact (updateGridState_keeps_grid_under_threshold sample_draws sample_grid 0 H).
Defined.

End GridMore.
